(** * metaverse-rpc: the JSON-RPC client peer and the host component system

    A shallow embedding of [src/common/json-rpc/Client.ts] (class [Client])
    and of the host-side component system (the [PrivateHelpers] namespace,
    [registerComponent], [getComponentName], [ComponentSystem.enable] and
    [ComponentSystem.unmount]), followed by the properties established
    about them.

    Conventions of the embedding.
    - A JavaScript value is a [JsValue].  Numbers are the integer-valued
      ones ([Z]); fractional numbers, NaN, symbols and bigints are not
      represented.  A string is the list of the bytes of its UTF-8
      text; [js_length] counts its UTF-16 code units, which is what
      [String.prototype.length] returns.
    - An object is the ordered list of its own properties.
    - A method of a class is a function from the state of the instance to
      its new state, paired with a [Completion] when the method can throw.
    - What a method does to the outside world (events emitted, strings
      handed to the transport, console output) is appended to a trace of
      [Effect]s kept in the state. *)

From Stdlib Require Import ZArith Lia Ascii.
From stdpp Require Import base option list strings gmap pretty.

Local Open Scope Z_scope.

(** ** JavaScript values *)

#[warnings="-register-all"]
Inductive JsValue : Type :=
| JUndefined
| JNull
| JBool (b : bool)
| JNumber (n : Z)
| JString (s : string)
| JArray (items : list JsValue)
| JObject (fields : list (string * JsValue))
| JFunction (ref : nat)
| JError (ctor : string) (fields : list (string * JsValue))
| JReproto (proto : JsValue) (base : JsValue).

(** [JError ctor fields] is an object made by the constructor [ctor]
    ([Error], [TypeError], [SyntaxError]) whose prototype is still that of
    the constructor.  [JReproto proto base] is the object [base] after its
    prototype has been replaced by [proto], an object or [JNull] for none:
    what assigning to [__proto__] does. *)

(** The result of the [typeof] operator. *)
Inductive JsType : Type :=
| TUndefined | TObject | TBoolean | TNumber | TString | TFunction.

Fixpoint typeof (v : JsValue) : JsType :=
  match v with
  | JUndefined => TUndefined
  | JNull => TObject
  | JBool _ => TBoolean
  | JNumber _ => TNumber
  | JString _ => TString
  | JArray _ => TObject
  | JObject _ => TObject
  | JFunction _ => TFunction
  | JError _ _ => TObject
  | JReproto _ base => typeof base
  end.

Definition JsType_eqb (a b : JsType) : bool :=
  match a, b with
  | TUndefined, TUndefined | TObject, TObject | TBoolean, TBoolean
  | TNumber, TNumber | TString, TString | TFunction, TFunction => true
  | _, _ => false
  end.

(** ToBoolean: what [if (v)], [!v] and [v || w] test. *)
Definition truthy (v : JsValue) : bool :=
  match v with
  | JUndefined | JNull => false
  | JBool b => b
  | JNumber n => negb (n =? 0)
  | JString s => negb (String.eqb s "")
  | JArray _ | JObject _ | JFunction _ | JError _ _ | JReproto _ _ => true
  end.

(** Own properties, first binding of a key. *)
Fixpoint obj_get (k : string) (fields : list (string * JsValue)) : option JsValue :=
  match fields with
  | [] => None
  | (k', v) :: rest => if String.eqb k k' then Some v else obj_get k rest
  end.

(** [o[k] = v]: overwrite in place, or add the property at the end. *)
Fixpoint obj_set (k : string) (v : JsValue) (fields : list (string * JsValue))
  : list (string * JsValue) :=
  match fields with
  | [] => [(k, v)]
  | (k', v') :: rest =>
      if String.eqb k k' then (k, v) :: rest else (k', v') :: obj_set k v rest
  end.

(** The own properties of an object. *)
Fixpoint own_fields (v : JsValue) : list (string * JsValue) :=
  match v with
  | JObject fields | JError _ fields => fields
  | JReproto _ base => own_fields base
  | _ => []
  end.

(** [v.k] for a key that no built-in prototype defines ([id], [result],
    [error], [method], [params], [message], [code], [data], [stack]): an
    own property, else what a replaced prototype gives. *)
Fixpoint prop (v : JsValue) (k : string) : JsValue :=
  match v with
  | JObject fields | JError _ fields => default JUndefined (obj_get k fields)
  | JReproto proto base =>
      match obj_get k (own_fields base) with
      | Some x => x
      | None => prop proto k
      end
  | _ => JUndefined
  end.

(** The characters of a string, for a string of ASCII text. *)
Fixpoint string_chars (s : string) : list string :=
  match s with
  | EmptyString => []
  | String a rest => String a EmptyString :: string_chars rest
  end.

Definition indexed (items : list JsValue) : list (string * JsValue) :=
  imap (fun i v => (pretty i, v)) items.

(** The own enumerable properties [Object.assign] reads from a source.
    The [message] and [stack] of an [Error] instance are not enumerable. *)
Fixpoint own_enumerable (v : JsValue) : list (string * JsValue) :=
  match v with
  | JObject fields => fields
  | JArray items => indexed items
  | JString s => indexed (JString <$> string_chars s)
  | JError _ fields =>
      List.filter
        (fun kv => negb (String.eqb kv.1 "message" || String.eqb kv.1 "stack"))
        fields
  | JReproto _ base => own_enumerable base
  | _ => []
  end.


(** What the setter of [__proto__] accepts: an object or [null].  Any
    other value leaves the prototype as it is. *)
Definition is_prototype (v : JsValue) : bool :=
  match v with
  | JNull | JArray _ | JObject _ | JFunction _ | JError _ _ | JReproto _ _ => true
  | _ => false
  end.

(** [Object.setPrototypeOf(target, proto)] *)
Definition set_prototype (proto target : JsValue) : JsValue :=
  match target with
  | JReproto _ base => JReproto proto base
  | JObject _ | JError _ _ => JReproto proto target
  | _ => target
  end.

(** [target[k] = v] for a key other than [__proto__]: the own property is
    written or added. *)
Fixpoint set_own (k : string) (v : JsValue) (target : JsValue) : JsValue :=
  match target with
  | JObject fields => JObject (obj_set k v fields)
  | JError ctor fields => JError ctor (obj_set k v fields)
  | JReproto proto base => JReproto proto (set_own k v base)
  | _ => target
  end.

(** [target[k] = v] as [Object.assign] performs it, which is an ordinary
    assignment: the key [__proto__] reaches the setter that every object
    inherits, and adds no own property. *)
Definition set_property (target : JsValue) (kv : string * JsValue) : JsValue :=
  if String.eqb kv.1 "__proto__" then
    if is_prototype kv.2 then set_prototype kv.2 target else target
  else set_own kv.1 kv.2 target.

(** [Object.assign(target, source)]: the own enumerable properties of the
    source are assigned to the target one by one, in their order. *)
Definition Object_assign (target source : JsValue) : JsValue :=
  foldl set_property target (own_enumerable source).

(** [String.prototype.length]: the number of UTF-16 code units.  A
    character of one, two or three bytes is one unit and a character of
    four bytes is two; the units are counted at its first two bytes, so
    that no byte counts for more than one. *)
Definition utf8_kind (a : ascii) : nat :=
  let n := nat_of_ascii a in
  if (n <? 128)%nat then 1%nat
  else if (n <? 192)%nat then 0%nat
  else if (n <? 240)%nat then 2%nat
  else 3%nat.

Fixpoint js_length_from (owed : bool) (s : string) : nat :=
  match s with
  | EmptyString => 0%nat
  | String a rest =>
      match utf8_kind a with
      | 0%nat => if owed then S (js_length_from false rest) else js_length_from false rest
      | 3%nat => S (js_length_from true rest)
      | _ => S (js_length_from false rest)
      end
  end.

Definition js_length (s : string) : nat := js_length_from false s.

(** What a call that may throw hands back. *)
Inductive Completion (A : Type) : Type :=
| Normal (a : A)
| Throw (e : JsValue).
Arguments Normal {A} a.
Arguments Throw {A} e.

(** The built-ins of the engine that the code calls.  [JSON_parse] returns
    the parsed value or the [SyntaxError] it throws; [ToString] is the
    conversion a template literal applies; [Error_stack] is the trace an
    [Error] captures when it is constructed. *)
Class Platform : Type := {
  JSON_parse : string -> JsValue + JsValue;
  JSON_stringify : JsValue -> string;
  ToString : JsValue -> string;
  Error_stack : string
}.

Definition new_Error {engine : Platform} (message : string) : JsValue :=
  JError "Error" [("message", JString message); ("stack", JString Error_stack)].

(** ** [class Client] *)

Module Client.

Inductive Direction : Type := Send | Receive.

Inductive Effect : Type :=
| EmitEvent (event : JsValue) (args : list JsValue)
| AddListener (event : string) (handler : JsValue)
| SendMessage (message : string)
| ConsoleLog (direction : Direction) (message : string).

Inductive PromiseState : Type :=
| Pending
| Fulfilled (value : JsValue)
| Rejected (reason : JsValue).

(** The private fields of the class, the promises [call] has created (a
    [{resolve, reject}] pair is the index of its promise) and the trace. *)
Record Client : Type := mkClient {
  _responsePromiseMap : gmap Z nat;
  _nextMessageId : Z;
  _consoleLog : bool;
  _requestQueue : list string;
  _connected : bool;
  promises : list PromiseState;
  effects : list Effect
}.

Definition with_effect (e : Effect) (c : Client) : Client :=
  mkClient (_responsePromiseMap c) (_nextMessageId c) (_consoleLog c)
           (_requestQueue c) (_connected c) (promises c) (effects c ++ [e]).

Definition with_queue (q : list string) (c : Client) : Client :=
  mkClient (_responsePromiseMap c) (_nextMessageId c) (_consoleLog c)
           q (_connected c) (promises c) (effects c).

Definition with_connected (b : bool) (c : Client) : Client :=
  mkClient (_responsePromiseMap c) (_nextMessageId c) (_consoleLog c)
           (_requestQueue c) b (promises c) (effects c).

Definition with_nextMessageId (n : Z) (c : Client) : Client :=
  mkClient (_responsePromiseMap c) n (_consoleLog c)
           (_requestQueue c) (_connected c) (promises c) (effects c).

Definition with_responsePromiseMap (m : gmap Z nat) (c : Client) : Client :=
  mkClient m (_nextMessageId c) (_consoleLog c)
           (_requestQueue c) (_connected c) (promises c) (effects c).

Definition with_promises (ps : list PromiseState) (c : Client) : Client :=
  mkClient (_responsePromiseMap c) (_nextMessageId c) (_consoleLog c)
           (_requestQueue c) (_connected c) ps (effects c).

(** [setLogging({ logConsole } = {})] *)
Definition setLogging (logConsole : bool) (c : Client) : Client :=
  mkClient (_responsePromiseMap c) (_nextMessageId c) logConsole
           (_requestQueue c) (_connected c) (promises c) (effects c).

(** The field initialisers followed by the constructor body; an absent
    [opts] leaves [logConsole] undefined, which logs nothing. *)
Definition new_Client (logConsole : bool) : Client :=
  setLogging logConsole (mkClient ∅ 0 false [] false [] []).

(** Modelled from the spec: [EventDispatcher.emit], whose class
    ([../core/EventDispatcher]) is not among the sources.  Delivery to the
    listeners is synchronous and a failing listener never makes [emit]
    throw; the embedding records the emission. *)
Definition emit (event : JsValue) (args : list JsValue) (c : Client) : Client :=
  with_effect (EmitEvent event args) c.

(** Modelled from the spec: [EventDispatcher.on], from the same absent
    class; the embedding records the subscription. *)
Definition on (event : string) (handler : JsValue) (c : Client) : Client :=
  with_effect (AddListener event handler) c.

(** [abstract sendMessage(message)]: the transport receives the string.
    The class leaves the method to its subclasses; this is the transport
    that returns normally and does not call back into the peer while it
    sends.  The transports that submit messages of their own from within
    [sendMessage] are those of [Reentrant] below. *)
Definition sendMessage (message : string) (c : Client) : Client :=
  with_effect (SendMessage message) c.

(** [new Promise(executor)]: a fresh pending promise. *)
Definition new_Promise (c : Client) : Client * nat :=
  (with_promises (promises c ++ [Pending]) c, length (promises c)).

(** Settling a promise that is already settled does nothing. *)
Definition settle (p : nat) (s : PromiseState) (c : Client) : Client :=
  match promises c !! p with
  | Some Pending => with_promises (<[p := s]> (promises c)) c
  | _ => c
  end.

Definition resolve (p : nat) (value : JsValue) : Client -> Client :=
  settle p (Fulfilled value).

Definition reject (p : nat) (reason : JsValue) : Client -> Client :=
  settle p (Rejected reason).

Definition _logMessage (message : string) (direction : Direction) (c : Client)
  : Client :=
  if _consoleLog c then with_effect (ConsoleLog direction message) c else c.

Definition _sendQueuedRequests (c : Client) : Client :=
  if _connected c then
    let queue := _requestQueue c in
    foldl (fun c messageStr => sendMessage messageStr (_logMessage messageStr Send c))
          (with_queue [] c) queue
  else c.

Definition didConnect (c : Client) : Client :=
  if negb (_connected c) then _sendQueuedRequests (with_connected true c) else c.

(** [Map.prototype.get] at a key that is any value: only a number can be
    a key of the table. *)
Definition table_get (c : Client) (id : JsValue) : option nat :=
  match id with
  | JNumber n => _responsePromiseMap c !! n
  | _ => None
  end.

Section WithPlatform.
Context {engine : Platform}.

Definition processMessage (messageStr : string) (c : Client) : Client :=
  let c := _logMessage messageStr Receive c in
  match JSON_parse messageStr with
  | inr e => emit (JString "error") [e] c
  | inl message =>
      if negb (truthy message) then
        emit (JString "error")
             [new_Error "Message cannot be null, empty or undefined"] c
      else if truthy (prop message "id") then
        match table_get c (prop message "id") with
        | Some promise =>
            if truthy (prop message "result") then
              resolve promise (prop message "result") c
            else if truthy (prop message "error") then
              let error :=
                Object_assign (new_Error "Remote error") (prop message "error") in
              reject promise error c
            else
              emit (JString "error")
                   [new_Error ("Response must have result or error: " +:+ messageStr)] c
        | None =>
            emit (JString "error")
                 [new_Error ("Response with id:" +:+ ToString (prop message "id")
                             +:+ " has no pending request")] c
        end
      else if truthy (prop message "method") then
        emit (prop message "method") [prop message "params"] c
      else
        emit (JString "error") [new_Error ("Invalid message: " +:+ messageStr)] c
  end.

Definition _send (message : JsValue) (c : Client) : Client :=
  _sendQueuedRequests
    (with_queue (_requestQueue c ++ [JSON_stringify message]) c).

(** The guard shared by [call] and [notify]. *)
Definition params_rejected (params : JsValue) : bool :=
  negb (JsType_eqb (typeof params) TUndefined)
  && negb (JsType_eqb (typeof params) TObject).

Definition request (id : Z) (method : string) (params : JsValue) : JsValue :=
  JObject [("id", JNumber id); ("method", JString method); ("params", params)].

Definition notification (method : string) (params : JsValue) : JsValue :=
  JObject [("method", JString method); ("params", params)].

(** [call(method, params?)]: an absent [params] is [JUndefined].  The
    executor of the promise runs at once; nothing in it throws here, so
    its [catch] is not taken. *)
Definition call (method : string) (params : JsValue) (c : Client)
  : Client * Completion nat :=
  if params_rejected params then
    (c, Throw (new_Error "Params must be structured data (Array | Object)"))
  else
    let id := _nextMessageId c + 1 in
    let c := with_nextMessageId id c in
    let message := request id method params in
    let '(c, promise) := new_Promise c in
    let c := with_responsePromiseMap (<[id := promise]> (_responsePromiseMap c)) c in
    let c := _send message c in
    (c, Normal promise).

Definition notify (method : string) (params : JsValue) (c : Client)
  : Client * Completion unit :=
  if params_rejected params then
    (c, Throw (new_Error "Params must be structured data (Array | Object)"))
  else
    (_send (notification method params) c, Normal tt).

End WithPlatform.

(** What the transport has been handed so far, oldest first. *)
Definition sent (c : Client) : list string :=
  omap (fun e => match e with SendMessage m => Some m | _ => None end) (effects c).

(** *** [api(prefix?)]: the proxy namespaces *)

(** The property names every plain object inherits from [Object.prototype]. *)
Definition Object_prototype_names : list string :=
  [ "constructor"; "__defineGetter__"; "__defineSetter__"; "hasOwnProperty";
    "__lookupGetter__"; "__lookupSetter__"; "isPrototypeOf";
    "propertyIsEnumerable"; "toString"; "valueOf"; "__proto__";
    "toLocaleString" ].

(** What a property access on a namespace can return.  [MRef r] is the
    object allocated at address [r]; two results are [===] exactly when
    they are equal. *)
Inductive Member : Type :=
| MObjectPrototype
| MInherited (name : string)
| MRef (r : nat).

(** The objects [api] and its trap allocate: the target of a proxy, with
    the prefix its handler closes over and the properties stored on it so
    far, and the three kinds of function the trap creates. *)
Inductive Cell : Type :=
| CTarget (prefix : option string) (own : gmap string Member)
| CSubscribe (event : string)
| CNotify (method : string)
| CCall (method : string).

(** A peer together with the objects its namespaces consist of. *)
Record Realm : Type := mkRealm {
  peer : Client;
  heap : list Cell
}.

Definition alloc (cell : Cell) (r : Realm) : Realm * Member :=
  (mkRealm (peer r) (heap r ++ [cell]), MRef (length (heap r))).

(** [target[prop]] as a read: an own property, else what the prototype
    gives.  [None] is [undefined]; every other result is truthy. *)
Definition target_read (own : gmap string Member) (prop : string) : option Member :=
  match own !! prop with
  | Some m => Some m
  | None =>
      if String.eqb prop "__proto__" then Some MObjectPrototype
      else if bool_decide (prop ∈ Object_prototype_names) then Some (MInherited prop)
      else None
  end.

(** [prop.substr(n)], for a [prop] whose first [n] bytes are ASCII
    characters, as they are where the trap takes a prefix off. *)
Definition substr_from (n : nat) (s : string) : string :=
  String.substring n (String.length s - n) s.

(** [api(prefix?)] builds [new Proxy({}, handler)]; the guard [!Proxy]
    is false in every engine in which a trap can run. *)
Definition api (prefix : option string) (r : Realm) : Realm * Member :=
  alloc (CTarget prefix ∅) r.

(** The value the trap computes for a property that is not cached. *)
Definition fresh_member (prefix : option string) (prop : string) (r : Realm)
  : Realm * Member :=
  match prefix with
  | None => api (Some (prop +:+ ".")) r
  | Some prefix =>
      if String.eqb (String.substring 0 2 prop) "on"
         && (3 <? js_length prop)%nat then
        alloc (CSubscribe (prefix +:+ substr_from 2 prop)) r
      else if String.eqb (String.substring 0 4 prop) "emit"
              && (5 <? js_length prop)%nat then
        alloc (CNotify (prefix +:+ substr_from 4 prop)) r
      else
        alloc (CCall (prefix +:+ prop)) r
  end.

Definition store_member (t : nat) (prefix : option string)
  (own : gmap string Member) (prop : string) (m : Member) (r : Realm) : Realm :=
  mkRealm (peer r) (<[t := CTarget prefix (<[prop := m]> own)]> (heap r)).

(** The [get] trap of the proxy whose target is at address [t]; [None]
    when [t] is not the address of a target. *)
Definition proxy_get (t : nat) (prop : string) (r : Realm) : option (Realm * Member) :=
  match heap r !! t with
  | Some (CTarget prefix own) =>
      match target_read own prop with
      | Some m => Some (r, m)
      | None =>
          if String.eqb prop "__proto__" || String.eqb prop "prototype" then
            Some (r, MObjectPrototype)
          else
            let '(r, m) := fresh_member prefix prop r in
            let r := store_member t prefix own prop m r in
            match heap r !! t with
            | Some (CTarget _ own) => pair r <$> target_read own prop
            | _ => None
            end
      end
  | _ => None
  end.

(** [root.a.b]: two accesses in a row, the second on the result of the
    first. *)
Definition proxy_get2 (t : nat) (a b : string) (r : Realm) : option (Realm * Member) :=
  match proxy_get t a r with
  | Some (r, MRef t') => proxy_get t' b r
  | _ => None
  end.

Section WithPlatformApi.
Context {engine : Platform}.

(** Calling a function the trap created, with the given arguments. *)
Definition invoke (m : Member) (args : list JsValue) (r : Realm)
  : option (Realm * Completion unit) :=
  match m with
  | MRef f =>
      match heap r !! f with
      | Some (CSubscribe event) =>
          Some (mkRealm (on event (default JUndefined (args !! 0%nat)) (peer r)) (heap r),
                Normal tt)
      | Some (CNotify method) =>
          let '(c, out) := notify method (JArray args) (peer r) in
          Some (mkRealm c (heap r), out)
      | Some (CCall method) =>
          let '(c, out) := call method (JArray args) (peer r) in
          Some (mkRealm c (heap r),
                match out with Normal _ => Normal tt | Throw e => Throw e end)
      | _ => None
      end
  | _ => None
  end.

End WithPlatformApi.

End Client.

(** ** The host component system *)

Module ComponentSystem.

(** *** The class registry *)

(** An object that can be handed to [registerComponent]: whether it is a
    function (a class), the name stored on it under [componentNameSymbol],
    and the objects of its prototype chain, nearest first (for a class,
    the classes it extends). *)
Record ClassObject : Type := mkClassObject {
  callable : bool;
  own_tag : option string;
  ancestors : list nat
}.

Inductive Primitive : Type :=
| PUndefined | PNull | PBool (b : bool) | PNumber (n : Z) | PString (s : string).

(** The argument [api]: a primitive, or the address of an object. *)
Inductive Candidate : Type :=
| OfPrimitive (p : Primitive)
| OfObject (ref : nat).

(** The module-level state: the objects and the [registeredComponents]
    dictionary. *)
Record Registry : Type := mkRegistry {
  objects : list ClassObject;
  registeredComponents : gmap string nat
}.

Definition tag_of (reg : Registry) (ref : nat) : option string :=
  objects reg !! ref ≫= own_tag.

(** [api[componentNameSymbol]] as a read: the nearest object of the chain
    that has the property. *)
Definition read_tag (reg : Registry) (ref : nat) : option string :=
  match objects reg !! ref with
  | Some o =>
      match own_tag o with
      | Some name => Some name
      | None => list_find is_Some (tag_of reg <$> ancestors o) ≫= snd
      end
  | None => None
  end.

(** [componentNameSymbol in api] *)
Definition has_tag (reg : Registry) (ref : nat) : bool :=
  bool_decide (is_Some (read_tag reg ref)).

(** [componentName in registeredComponents]: an own key of the
    dictionary, or a name every plain object inherits. *)
Definition name_in_registry (reg : Registry) (componentName : string) : bool :=
  bool_decide (is_Some (registeredComponents reg !! componentName))
  || bool_decide (componentName ∈ Client.Object_prototype_names).

Definition is_function (reg : Registry) (ref : nat) : bool :=
  match objects reg !! ref with
  | Some o => callable o
  | None => false
  end.

Definition type_name (reg : Registry) (ref : nat) : string :=
  if is_function reg ref then "function" else "object".

Definition set_tag (ref : nat) (name : string) (reg : Registry) : Registry :=
  match objects reg !! ref with
  | Some o =>
      mkRegistry (<[ref := mkClassObject (callable o) (Some name) (ancestors o)]>
                    (objects reg))
                 (registeredComponents reg)
  | None => reg
  end.

Definition set_registered (name : string) (ref : nat) (reg : Registry) : Registry :=
  mkRegistry (objects reg) (<[name := ref]> (registeredComponents reg)).

Section WithPlatform.
Context {engine : Platform}.

Definition new_TypeError (message : string) : JsValue :=
  JError "TypeError" [("message", JString message); ("stack", JString Error_stack)].

(** The [TypeError] the [in] operator throws at a primitive on its right,
    and the one a property read throws at [undefined] and [null]. *)
Definition in_operator_TypeError : JsValue :=
  new_TypeError "Cannot use 'in' operator".

Definition property_read_TypeError : JsValue :=
  new_TypeError "Cannot read properties".

Definition _registerComponent (componentName : string) (api : Candidate)
  (reg : Registry) : Registry * Completion unit :=
  match api with
  | OfPrimitive _ => (reg, Throw in_operator_TypeError)
  | OfObject ref =>
      if has_tag reg ref then
        (reg, Throw (new_Error "The API you are trying to register is already registered"))
      else if name_in_registry reg componentName then
        (reg, Throw (new_Error ("The API " +:+ componentName +:+ " is already registered")))
      else if negb (is_function reg ref) then
        (reg, Throw (new_Error ("The API " +:+ componentName
                                +:+ " is not a class, it is of type "
                                +:+ type_name reg ref)))
      else
        (set_registered componentName ref (set_tag ref componentName reg), Normal tt)
  end.

(** [registerComponent(componentName)] returns the decorator. *)
Definition registerComponent (componentName : string)
  : Candidate -> Registry -> Registry * Completion unit :=
  fun api => _registerComponent componentName api.

(** [klass[componentNameSymbol] || null] *)
Definition getComponentName (klass : Candidate) (reg : Registry) : Completion JsValue :=
  match klass with
  | OfPrimitive PUndefined | OfPrimitive PNull => Throw property_read_TypeError
  | OfPrimitive _ => Normal JNull
  | OfObject ref =>
      match read_tag reg ref with
      | Some name => Normal (if truthy (JString name) then JString name else JNull)
      | None => Normal JNull
      end
  end.

End WithPlatform.

(** *** Lifecycle of the instances *)

(** What a lifecycle hook does when it is called: it throws, or it
    returns nothing (a plain method), or it returns a promise (an [async]
    method), which then stays pending, fulfils or rejects.  These are the
    returns the hooks are declared with ([Promise<void> | void]); a hook
    that returns any other value is not represented. *)
Inductive PromiseFate : Type :=
| StaysPending
| Fulfils
| RejectsWith (error : JsValue).

Inductive Hook : Type :=
| HookThrows (error : JsValue)
| HookReturnsUndefined
| HookReturnsPromise (fate : PromiseFate).

Record Component : Type := mkComponent {
  componentDidMount : option Hook;
  componentWillUnmount : option Hook
}.

Inductive Lifecycle : Type := Mount | Unmount.

(** What a system does, in the order in which it does it. *)
Inductive Event : Type :=
| Notified (method : string)
| Emitted (event : string)
| HelperCalled (which : Lifecycle) (component : Component)
| HookCalled (which : Lifecycle) (component : Component)
| InstancesCleared
| WorkerTerminated
| ServerEnabled.

(** A report on the diagnostics sink, [console.error(message, { component, error })]. *)
Record Diagnostic : Type := mkDiagnostic {
  diag_message : string;
  diag_component : Component;
  diag_error : JsValue
}.

(** The instance map, in insertion order, the trace of the system and
    the reports made once the promises of the hooks have settled.  A
    report is made when its promise rejects, which is after the helper
    has returned: [diagnostics] lists the reports by the hook call that
    attached their handler, and says which reports are made, not in which
    order the console shows them. *)
Record System : Type := mkSystem {
  componentInstances : list (string * Component);
  trace : list Event;
  diagnostics : list Diagnostic
}.

Definition log (e : Event) (s : System) : System :=
  mkSystem (componentInstances s) (trace s ++ [e]) (diagnostics s).

Definition console_error (d : Diagnostic) (s : System) : System :=
  mkSystem (componentInstances s) (trace s) (diagnostics s ++ [d]).

(** Modelled from the spec: [notify], [emit], [enable] and [worker] of
    [WebWorkerServer], which is not among the sources.  Each is recorded
    in the trace and returns normally. *)
Definition notify (method : string) : System -> System := log (Notified method).
Definition emit (event : string) : System -> System := log (Emitted event).
Definition super_enable : System -> System := log ServerEnabled.
Definition worker_terminate : System -> System := log WorkerTerminated.

Definition hook_of (which : Lifecycle) (component : Component) : option Hook :=
  match which with
  | Mount => componentDidMount component
  | Unmount => componentWillUnmount component
  end.

Definition failure_message (which : Lifecycle) : string :=
  match which with
  | Mount => "Error mounting component"
  | Unmount => "Error unmounting component"
  end.

(** The common body of [mountComponent] and [unmountComponent].  The
    handler given to [promise.catch] runs when the promise rejects; its
    report is entered in [diagnostics] where the handler is attached. *)
Definition lifecycle (which : Lifecycle) (component : Component) (s : System)
  : System * Completion unit :=
  let s := log (HelperCalled which component) s in
  match hook_of which component with
  | None => (s, Normal tt)
  | Some hook =>
      let s := log (HookCalled which component) s in
      match hook with
      | HookThrows error => (s, Throw error)
      | HookReturnsUndefined => (s, Normal tt)
      | HookReturnsPromise (RejectsWith error) =>
          (console_error (mkDiagnostic (failure_message which) component error) s,
           Normal tt)
      | HookReturnsPromise _ => (s, Normal tt)
      end
  end.

Definition unmountComponent : Component -> System -> System * Completion unit :=
  lifecycle Unmount.

Definition mountComponent : Component -> System -> System * Completion unit :=
  lifecycle Mount.

(** [Map.prototype.forEach]: the entries in insertion order, until the
    callback throws. *)
Fixpoint forEach (callback : Component -> System -> System * Completion unit)
  (entries : list (string * Component)) (s : System) : System * Completion unit :=
  match entries with
  | [] => (s, Normal tt)
  | (_, component) :: rest =>
      match callback component s with
      | (s, Normal _) => forEach callback rest s
      | (s, Throw error) => (s, Throw error)
      end
  end.

(** [this.componentInstances.clear()] *)
Definition clear_instances (s : System) : System :=
  log InstancesCleared (mkSystem [] (trace s) (diagnostics s)).

Definition enable (s : System) : System * Completion unit :=
  let s := emit "systemWillEnable" s in
  match forEach mountComponent (componentInstances s) s with
  | (s, Normal _) => (super_enable s, Normal tt)
  | (s, Throw error) => (s, Throw error)
  end.

Definition unmount (s : System) : System * Completion unit :=
  let s := notify "SIGKILL" s in
  let s := emit "systemWillUnmount" s in
  match forEach unmountComponent (componentInstances s) s with
  | (s, Normal _) =>
      let s := clear_instances s in
      let s := worker_terminate s in
      let s := emit "systemDidUnmount" s in
      (s, Normal tt)
  | (s, Throw error) => (s, Throw error)
  end.

End ComponentSystem.

(** ** [ComponentSystem]: locating and loading instances *)

Module Locator.
Import ComponentSystem.

(** The registry of the module, the system, and the constructions made
    so far: the class constructed and the [componentName] of the options
    it was given. *)
Record Host : Type := mkHost {
  registry : Registry;
  system : System;
  constructed : list (nat * string)
}.

(** [Map.prototype.get] on the instance map. *)
Fixpoint instances_get (name : string) (entries : list (string * Component))
  : option Component :=
  match entries with
  | [] => None
  | (key, instance) :: rest =>
      if String.eqb name key then Some instance else instances_get name rest
  end.

(** [Map.prototype.set]: the value of a present key is replaced where it
    is, a new key goes last. *)
Fixpoint instances_set (name : string) (instance : Component)
  (entries : list (string * Component)) : list (string * Component) :=
  match entries with
  | [] => [(name, instance)]
  | (key, old) :: rest =>
      if String.eqb name key then (key, instance) :: rest
      else (key, old) :: instances_set name instance rest
  end.

Definition with_instances (entries : list (string * Component)) (h : Host) : Host :=
  mkHost (registry h)
         (mkSystem entries (trace (system h)) (diagnostics (system h)))
         (constructed h).

Definition with_constructed (ctor : nat) (name : string) (h : Host) : Host :=
  mkHost (registry h) (system h) (constructed h ++ [(ctor, name)]).

(** The value by which an argument is shown in an error; an object is
    shown by its address. *)
Definition candidate_value (component : Candidate) : JsValue :=
  match component with
  | OfPrimitive PUndefined => JUndefined
  | OfPrimitive PNull => JNull
  | OfPrimitive (PBool b) => JBool b
  | OfPrimitive (PNumber n) => JNumber n
  | OfPrimitive (PString s) => JString s
  | OfObject ref => JFunction ref
  end.

(** [Array.prototype.join(',')] on strings. *)
Fixpoint join_comma (parts : list string) : string :=
  match parts with
  | [] => ""
  | [p] => p
  | p :: rest => p +:+ "," +:+ join_comma rest
  end.

Section WithPlatform.
Context {engine : Platform}.

(** [ctor.factory ? ctor.factory(ctor, componentOptions) : new
    ctor(componentOptions)]: what the class at an address yields for the
    options of a component name.  It is code of the component; it is
    taken not to call back into the system while it runs. *)
Variable construct : nat -> string -> Completion Component.

Definition cannot_get_instance (component : JsValue) : JsValue :=
  Object_assign (new_Error "Cannot get instance of the specified component")
                (JObject [("component", component)]).

Definition initializeComponent (ctor : nat) (h : Host) : Host * Completion Component :=
  match getComponentName (OfObject ctor) (registry h) with
  | Throw e => (h, Throw e)
  | Normal (JString componentName) =>
      match instances_get componentName (componentInstances (system h)) with
      | Some instance => (h, Normal instance)
      | None =>
          let h := with_constructed ctor componentName h in
          match construct ctor componentName with
          | Throw e => (h, Throw e)
          | Normal instance =>
              (with_instances
                 (instances_set componentName instance (componentInstances (system h))) h,
               Normal instance)
          end
      end
  | Normal _ => (h, Throw (new_Error "The plugin is not registered"))
  end.

Definition located (out : Host * Completion Component)
  : Host * Completion (option Component) :=
  match out with
  | (h, Normal instance) => (h, Normal (Some instance))
  | (h, Throw e) => (h, Throw e)
  end.

(** [getComponentInstance(component)]; [None] is [null].  Under a name
    that [registeredComponents] only inherits, the dictionary holds a
    built-in of [Object.prototype], which carries no component name. *)
Definition getComponentInstance (component : Candidate) (h : Host)
  : Host * Completion (option Component) :=
  match component with
  | OfPrimitive (PString name) =>
      match instances_get name (componentInstances (system h)) with
      | Some instance => (h, Normal (Some instance))
      | None =>
          match registeredComponents (registry h) !! name with
          | Some ctor => located (initializeComponent ctor h)
          | None =>
              if bool_decide (name ∈ Client.Object_prototype_names)
              then (h, Throw (new_Error "The plugin is not registered"))
              else (h, Normal None)
          end
      end
  | OfObject ref =>
      if is_function (registry h) ref then
        match getComponentName (OfObject ref) (registry h) with
        | Normal (JString componentName) =>
            match instances_get componentName (componentInstances (system h)) with
            | Some instance => (h, Normal (Some instance))
            | None => located (initializeComponent ref h)
            end
        | _ => (h, Throw (cannot_get_instance (candidate_value component)))
        end
      else (h, Throw (cannot_get_instance (candidate_value component)))
  | OfPrimitive _ => (h, Throw (cannot_get_instance (candidate_value component)))
  end.

(** [componentNames.map(name => ({ component:
    this.getComponentInstance(name), name }))].  A name that arrives in a
    request is JSON, so it is never a function. *)
Fixpoint locate_all (names : list JsValue) (h : Host)
  : Host * Completion (list (option Component * string)) :=
  match names with
  | [] => (h, Normal [])
  | JString name :: rest =>
      match getComponentInstance (OfPrimitive (PString name)) h with
      | (h, Throw e) => (h, Throw e)
      | (h, Normal component) =>
          match locate_all rest h with
          | (h, Throw e) => (h, Throw e)
          | (h, Normal found) => (h, Normal ((component, name) :: found))
          end
      end
  | other :: _ => (h, Throw (cannot_get_instance other))
  end.

Definition not_found (found : list (option Component * string)) : list string :=
  snd <$> List.filter (fun entry => negb (bool_decide (is_Some entry.1))) found.

(** [RPCLoadComponents(componentNames)]; a throw is the rejection of the
    promise the [async] method returns. *)
Definition RPCLoadComponents (componentNames : JsValue) (h : Host)
  : Host * Completion unit :=
  match componentNames with
  | JArray names =>
      match locate_all names h with
      | (h, Throw e) => (h, Throw e)
      | (h, Normal found) =>
          match not_found found with
          | [] => (h, Normal tt)
          | notFound =>
              (h, Throw (new_TypeError ("Components not found " +:+ join_comma notFound)))
          end
      end
  | _ =>
      (h, Throw (new_TypeError
                   "RPCLoadComponents(names) name must be an array of strings"))
  end.

End WithPlatform.

End Locator.

(** ** A reference engine

    An executable [Platform] for JSON over integers, strings without
    escapes, arrays and objects.  The theorems below hold for every
    platform; this one evaluates the code on actual message texts. *)

Module Engine.

Local Open Scope char_scope.

Definition quote : ascii := "034".

Definition quoted (s : string) : string :=
  String quote (s +:+ String quote EmptyString).

Definition is_digit (a : ascii) : bool :=
  (48 <=? nat_of_ascii a)%nat && (nat_of_ascii a <=? 57)%nat.

Definition is_space (a : ascii) : bool :=
  bool_decide (nat_of_ascii a ∈ [32; 9; 10; 13]%nat).

Fixpoint skip_space (s : list ascii) : list ascii :=
  match s with
  | a :: rest => if is_space a then skip_space rest else s
  | [] => []
  end.

Fixpoint take_string (s : list ascii) : option (string * list ascii) :=
  match s with
  | [] => None
  | a :: rest =>
      if Ascii.eqb a quote then Some (EmptyString, rest)
      else '(t, rest) ← take_string rest; Some (String a t, rest)
  end.

Fixpoint take_digits (acc : Z) (s : list ascii) : Z * list ascii :=
  match s with
  | a :: rest =>
      if is_digit a
      then take_digits (10 * acc + Z.of_nat (nat_of_ascii a - 48)) rest
      else (acc, s)
  | [] => (acc, [])
  end.

Fixpoint parse_value (fuel : nat) (s : list ascii) : option (JsValue * list ascii) :=
  match fuel with
  | O => None
  | S fuel =>
      match skip_space s with
      | "n" :: "u" :: "l" :: "l" :: rest => Some (JNull, rest)
      | "t" :: "r" :: "u" :: "e" :: rest => Some (JBool true, rest)
      | "f" :: "a" :: "l" :: "s" :: "e" :: rest => Some (JBool false, rest)
      | "[" :: rest =>
          match skip_space rest with
          | "]" :: rest => Some (JArray [], rest)
          | _ => '(items, rest) ← parse_items fuel rest; Some (JArray items, rest)
          end
      | "{" :: rest =>
          match skip_space rest with
          | "}" :: rest => Some (JObject [], rest)
          | _ => '(fields, rest) ← parse_members fuel [] rest; Some (JObject fields, rest)
          end
      | "-" :: a :: rest =>
          if is_digit a
          then let '(n, rest) := take_digits 0 (a :: rest) in Some (JNumber (- n), rest)
          else None
      | a :: rest =>
          if Ascii.eqb a quote then
            '(t, rest) ← take_string rest; Some (JString t, rest)
          else if is_digit a then
            let '(n, rest) := take_digits 0 (a :: rest) in Some (JNumber n, rest)
          else None
      | [] => None
      end
  end
with parse_items (fuel : nat) (s : list ascii) : option (list JsValue * list ascii) :=
  match fuel with
  | O => None
  | S fuel =>
      '(v, rest) ← parse_value fuel s;
      match skip_space rest with
      | "," :: rest => '(vs, rest) ← parse_items fuel rest; Some (v :: vs, rest)
      | "]" :: rest => Some ([v], rest)
      | _ => None
      end
  end
with parse_members (fuel : nat) (acc : list (string * JsValue)) (s : list ascii)
  : option (list (string * JsValue) * list ascii) :=
  match fuel with
  | O => None
  | S fuel =>
      match skip_space s with
      | a :: rest =>
          if Ascii.eqb a quote then
            '(k, rest) ← take_string rest;
            match skip_space rest with
            | ":" :: rest =>
                '(v, rest) ← parse_value fuel rest;
                match skip_space rest with
                | "," :: rest => parse_members fuel (obj_set k v acc) rest
                | "}" :: rest => Some (obj_set k v acc, rest)
                | _ => None
                end
            | _ => None
            end
          else None
      | [] => None
      end
  end.

Local Close Scope char_scope.

Definition SyntaxError : JsValue :=
  JError "SyntaxError" [("message", JString "Unexpected token")].

Definition parse (text : string) : JsValue + JsValue :=
  match parse_value (S (String.length text)) (String.list_ascii_of_string text) with
  | Some (v, rest) =>
      match skip_space rest with
      | [] => inl v
      | _ => inr SyntaxError
      end
  | None => inr SyntaxError
  end.

Definition join (parts : list string) : string :=
  match parts with
  | [] => ""
  | p :: rest => foldl (fun acc q => acc +:+ "," +:+ q) p rest
  end.

(** A property whose value is [undefined] or a function is left out of an
    object and printed as [null] in an array. *)
Definition serialisable (v : JsValue) : bool :=
  match v with
  | JUndefined | JFunction _ => false
  | _ => true
  end.

Fixpoint stringify (v : JsValue) : string :=
  match v with
  | JUndefined | JFunction _ => "undefined"
  | JNull => "null"
  | JBool true => "true"
  | JBool false => "false"
  | JNumber n => pretty n
  | JString s => quoted s
  | JArray items =>
      "[" +:+ join ((fun x => if serialisable x then stringify x else "null") <$> items)
          +:+ "]"
  | JObject fields =>
      let members :=
        (fix go (fs : list (string * JsValue)) : list string :=
           match fs with
           | [] => []
           | (k, x) :: rest =>
               if serialisable x
               then (quoted k +:+ ":" +:+ stringify x) :: go rest
               else go rest
           end) fields in
      "{" +:+ join members +:+ "}"
  | JError _ _ => "{}"
  | JReproto _ base => stringify base
  end.

Definition to_string (v : JsValue) : string :=
  match v with
  | JUndefined => "undefined"
  | JNull => "null"
  | JBool true => "true"
  | JBool false => "false"
  | JNumber n => pretty n
  | JString s => s
  | JArray items => join ((fun x => match x with JNumber n => pretty n | JString s => s | _ => "" end) <$> items)
  | JObject _ => "[object Object]"
  | JFunction _ => "function () { [native code] }"
  | JError ctor fields =>
      ctor +:+ ": " +:+ match obj_get "message" fields with
                        | Some (JString m) => m
                        | _ => ""
                        end
  | JReproto _ (JError _ _) => "[object Error]"
  | JReproto _ _ => "[object Object]"
  end.

Definition reference : Platform :=
  {| JSON_parse := parse;
     JSON_stringify := stringify;
     ToString := to_string;
     Error_stack := "Error" |}.

(** The text of a response with a result, and of one with an error. *)
Definition response_text (id result : string) : string :=
  "{" +:+ quoted "id" +:+ ":" +:+ id +:+ "," +:+ quoted "result" +:+ ":" +:+ result +:+ "}".

Definition error_text (id error : string) : string :=
  "{" +:+ quoted "id" +:+ ":" +:+ id +:+ "," +:+ quoted "error" +:+ ":" +:+ error +:+ "}".

End Engine.

(** ** Histories of a peer

    The operations a transport and a caller apply to a peer, and the
    messages a history submits for sending. *)

Module History.
Import Client.

Inductive Op : Type :=
| OpCall (method : string) (params : JsValue)
| OpNotify (method : string) (params : JsValue)
| OpDidConnect
| OpProcessMessage (messageStr : string)
| OpSetLogging (logConsole : bool).

Section WithPlatform.
Context {engine : Platform}.

Definition step (c : Client) (op : Op) : Client :=
  match op with
  | OpCall method params => (call method params c).1
  | OpNotify method params => (notify method params c).1
  | OpDidConnect => didConnect c
  | OpProcessMessage messageStr => processMessage messageStr c
  | OpSetLogging logConsole => setLogging logConsole c
  end.

Definition run (ops : list Op) (c : Client) : Client := foldl step c ops.


End WithPlatform.

End History.

(** ** Transports that call back or fail

    [sendMessage] is abstract, and a transport may do more with a message
    than take it.  Here a transport is given by its [Reaction] to each
    message: the notifications, each a method and its arguments, that it
    hands to [notify] of the same peer before [sendMessage] returns, and
    the error it then throws, if any.  An exception of a nested [notify]
    leaves [sendMessage] as well.  The methods of [Client] that reach
    [sendMessage] are given again with such a transport in place.  [fuel]
    bounds the depth to which the calls nest, and [None] is a run that
    needs more of it. *)

Module Reentrant.
Import Client History.

Record Reaction : Type := mkReaction {
  submissions : list (string * list JsValue);
  failure : option JsValue
}.

(** [for (const item of items) body(item)]: an exception leaves the
    loop. *)
Fixpoint each {A : Type} (body : A -> Client -> option (Client * Completion unit))
  (items : list A) (c : Client) : option (Client * Completion unit) :=
  match items with
  | [] => Some (c, Normal tt)
  | item :: rest =>
      match body item c with
      | Some (c, Normal _) => each body rest c
      | other => other
      end
  end.

Section WithTransport.
Context {engine : Platform}.
Variable transport : string -> Reaction.

(** [sendMessage(messageStr)]: the transport takes the string, makes its
    submissions, then returns or throws.  An array of arguments passes
    the guard of [notify], whose [_send] pushes the message and runs
    [_sendQueuedRequests], here [flush]. *)
Definition sendMessage (flush : Client -> option (Client * Completion unit))
  (messageStr : string) (c : Client) : option (Client * Completion unit) :=
  match each (fun '(method, args) c =>
                flush (with_queue
                         (_requestQueue c
                            ++ [JSON_stringify (notification method (JArray args))]) c))
             (submissions (transport messageStr))
             (Client.sendMessage messageStr c) with
  | Some (c, Normal _) =>
      match failure (transport messageStr) with
      | Some error => Some (c, Throw error)
      | None => Some (c, Normal tt)
      end
  | other => other
  end.

Fixpoint _sendQueuedRequests (fuel : nat) (c : Client)
  : option (Client * Completion unit) :=
  match fuel with
  | O => None
  | S fuel =>
      if _connected c then
        let queue := _requestQueue c in
        each (fun messageStr c =>
                sendMessage (_sendQueuedRequests fuel) messageStr
                            (_logMessage messageStr Send c))
             queue (with_queue [] c)
      else Some (c, Normal tt)
  end.

Definition didConnect (fuel : nat) (c : Client) : option (Client * Completion unit) :=
  if negb (_connected c) then _sendQueuedRequests fuel (with_connected true c)
  else Some (c, Normal tt).

Definition _send (fuel : nat) (message : JsValue) (c : Client)
  : option (Client * Completion unit) :=
  _sendQueuedRequests fuel
    (with_queue (_requestQueue c ++ [JSON_stringify message]) c).

(** In [call] the executor of the promise catches what [_send] throws
    and rejects the promise with it. *)
Definition call (fuel : nat) (method : string) (params : JsValue) (c : Client)
  : option (Client * Completion nat) :=
  if params_rejected params then
    Some (c, Throw (new_Error "Params must be structured data (Array | Object)"))
  else
    let id := _nextMessageId c + 1 in
    let c := with_nextMessageId id c in
    let message := request id method params in
    let '(c, promise) := new_Promise c in
    let c := with_responsePromiseMap (<[id := promise]> (_responsePromiseMap c)) c in
    match _send fuel message c with
    | Some (c, Normal _) => Some (c, Normal promise)
    | Some (c, Throw error) => Some (reject promise error c, Normal promise)
    | None => None
    end.

Definition notify (fuel : nat) (method : string) (params : JsValue) (c : Client)
  : option (Client * Completion unit) :=
  if params_rejected params then
    Some (c, Throw (new_Error "Params must be structured data (Array | Object)"))
  else _send fuel (notification method params) c.

(** The state in which an operation of a history leaves the peer,
    whether it returns or throws. *)
Definition step (fuel : nat) (c : Client) (op : Op) : option Client :=
  match op with
  | OpCall method params => fst <$> call fuel method params c
  | OpNotify method params => fst <$> notify fuel method params c
  | OpDidConnect => fst <$> didConnect fuel c
  | OpProcessMessage messageStr => Some (processMessage messageStr c)
  | OpSetLogging logConsole => Some (setLogging logConsole c)
  end.

Definition run (fuel : nat) (ops : list Op) (c : Client) : option Client :=
  foldl (fun state op => c ← state; step fuel c op) (Some c) ops.

End WithTransport.

End Reentrant.

(** ** Scenarios

    Concrete peers, on the reference engine, on which the code is
    evaluated. *)

Module Scenario.
Import Client.

(** A connected peer with one call in flight: request 1 awaits its
    response on promise 0. *)
Definition one_call_pending : Client :=
  (call (engine := Engine.reference) "Echo" (JArray [JNumber 42])
        (didConnect (new_Client false))).1.



(** The response [{id: 1, result: 42}], received once and then again. *)
Definition answered_once : Client :=
  processMessage (engine := Engine.reference)
    (Engine.response_text "1" "42") one_call_pending.

Definition answered_twice : Client :=
  processMessage (engine := Engine.reference)
    (Engine.response_text "1" "42") answered_once.

(** [call('m', null)] on a new peer. *)
Definition called_with_null : Client * Completion nat :=
  call (engine := Engine.reference) "m" JNull (new_Client false).

(** The unprefixed namespace [api()] of a new peer; its target is at
    address 0.  [root_Foo] is the state after [root.Foo] has been read. *)
Definition root : Realm := (api None (mkRealm (new_Client false) [])).1.

Definition root_Foo : Realm :=
  match proxy_get 0 "Foo" root with
  | Some (r, _) => r
  | None => root
  end.

(** A registry that knows one class, at address 0, not yet registered. *)
Definition one_class : ComponentSystem.Registry :=
  ComponentSystem.mkRegistry [ComponentSystem.mkClassObject true None []] ∅.

Definition boom_error : JsValue := JError "Error" [("message", JString "boom")].

(** Instances without hooks, with hooks that throw, and with hooks whose
    promise rejects. *)
Definition quiet : ComponentSystem.Component :=
  ComponentSystem.mkComponent None None.

Definition throwing : ComponentSystem.Component :=
  ComponentSystem.mkComponent
    (Some (ComponentSystem.HookThrows boom_error))
    (Some (ComponentSystem.HookThrows boom_error)).

Definition rejecting : ComponentSystem.Component :=
  ComponentSystem.mkComponent
    (Some (ComponentSystem.HookReturnsPromise (ComponentSystem.RejectsWith boom_error)))
    (Some (ComponentSystem.HookReturnsPromise (ComponentSystem.RejectsWith boom_error))).

Definition system_of (instances : list (string * ComponentSystem.Component))
  : ComponentSystem.System :=
  ComponentSystem.mkSystem instances [] [].

(** The text of a notification without arguments. *)
Definition note_text (method : string) : string :=
  Engine.stringify (notification method (JArray [])).



(** A transport that fails on every message. *)
Definition failing (messageStr : string) : Reentrant.Reaction :=
  Reentrant.mkReaction [] (Some (JError "Error" [("message", JString "closed")])).

(** [notify('a', [])] and [notify('b', [])] before the connection, then
    [didConnect()]. *)
Definition two_queued : list History.Op :=
  [History.OpNotify "a" (JArray []); History.OpNotify "b" (JArray [])].

Definition two_queued_then_connected : list History.Op :=
  two_queued ++ [History.OpDidConnect].

(** The text of a remote error object that carries the key [__proto__]. *)
Definition boom_proto : string :=
  "{" +:+ Engine.quoted "message" +:+ ":" +:+ Engine.quoted "boom" +:+ ","
      +:+ Engine.quoted "__proto__" +:+ ":null}".

End Scenario.

(** ** Further scenarios *)

Module Cases.
Import ComponentSystem.

(** The registry after [registerComponent('Foo')] has been applied to the
    class at address 0. *)
Definition registered_Foo : Registry :=
  (registerComponent (engine := Engine.reference) "Foo" (OfObject 0)
     Scenario.one_class).1.

(** A registered class at address 0 and a class that extends it, at
    address 1. *)
Definition with_subclass : Registry :=
  mkRegistry [mkClassObject true (Some "Foo") []; mkClassObject true None [0%nat]]
             {["Foo" := 0%nat]}.

(** Every class yields an instance without hooks. *)
Definition plain_constructor (ctor : nat) (name : string) : Completion Component :=
  Normal Scenario.quiet.

(** A host that knows the component [Foo] and has no instance yet, and
    the same host once [Foo] has been located. *)
Definition host_Foo : Locator.Host :=
  Locator.mkHost registered_Foo (Scenario.system_of []) [].

Definition host_Foo_located : Locator.Host :=
  (Locator.getComponentInstance (engine := Engine.reference) plain_constructor
     (OfPrimitive (PString "Foo")) host_Foo).1.

(** Two instances whose promises reject, in a system. *)
Definition two_rejecting : System :=
  Scenario.system_of [("A", Scenario.rejecting); ("B", Scenario.quiet)].

End Cases.

(** * Properties *)

(** ** Objects *)

Section Objects.



Lemma obj_get_Some_key k v fields : obj_get k fields = Some v -> k ∈ fields.*1.
Proof.
  induction fields as [|[k' v'] rest IH]; simpl; [done|].
  destruct (String.eqb k k') eqn:E.
  - apply String.eqb_eq in E. subst. intros _. apply list_elem_of_here.
  - intros Hg. apply list_elem_of_further. auto.
Qed.




Lemma js_length_from_le s : forall owed, (js_length_from owed s <= String.length s)%nat.
Proof.
  induction s as [|a rest IH]; intros owed; simpl; [lia|].
  destruct (utf8_kind a) as [|[|[|[|n]]]]; try destruct owed;
    try (specialize (IH false); lia); specialize (IH true); lia.
Qed.

Lemma js_length_le s : (js_length s <= String.length s)%nat.
Proof. apply js_length_from_le. Qed.

End Objects.

(** ** Sending: the queue and the transport *)

Section Sending.
Import Client.
Context {engine : Platform}.

(** The effects of sending the messages of a queue, one after the other. *)
Local Abbreviation flushed log queue :=
  (queue ≫= fun m => (if log then [ConsoleLog Send m] else []) ++ [SendMessage m])
  (only parsing).

Local Abbreviation selected :=
  (omap (fun e => match e with SendMessage m => Some m | _ => None end))
  (only parsing).

Lemma selected_flushed (log : bool) (queue : list string) :
  selected (flushed log queue) = queue.
Proof.
  induction queue as [|m rest IH]; [done|].
  rewrite bind_cons, omap_app, IH. by destruct log.
Qed.

Lemma sent_with_queue q c : sent (with_queue q c) = sent c.
Proof. done. Qed.

Lemma sent_logMessage m d c : sent (_logMessage m d c) = sent c.
Proof.
  unfold _logMessage, sent. destruct (_consoleLog c); [|done].
  simpl. rewrite omap_app. simpl. apply app_nil_r.
Qed.

Lemma sent_emit event args c : sent (emit event args c) = sent c.
Proof. unfold sent. simpl. rewrite omap_app. simpl. apply app_nil_r. Qed.

Lemma sent_settle p st c : sent (settle p st c) = sent c.
Proof. unfold settle. by destruct (promises c !! p) as [[| |]|]. Qed.

Lemma flush_closed_form (queue : list string) :
  forall c,
    foldl (fun c m => sendMessage m (_logMessage m Send c)) c queue
    = mkClient (_responsePromiseMap c) (_nextMessageId c) (_consoleLog c)
               (_requestQueue c) (_connected c) (promises c)
               (effects c ++ flushed (_consoleLog c) queue).
Proof.
  induction queue as [|m rest IH]; intros c.
  - destruct c. simpl. by rewrite app_nil_r.
  - simpl foldl. rewrite IH. destruct c as [tbl nxt [|] q cn ps eff]; simpl;
      by rewrite <- !app_assoc.
Qed.

Lemma _sendQueuedRequests_connected c :
  _connected c = true ->
  _sendQueuedRequests c
  = mkClient (_responsePromiseMap c) (_nextMessageId c) (_consoleLog c)
             [] true (promises c)
             (effects c ++ flushed (_consoleLog c) (_requestQueue c)).
Proof.
  intros Hc. unfold _sendQueuedRequests. rewrite Hc, flush_closed_form.
  destruct c; simpl in *. by subst.
Qed.

Lemma _sendQueuedRequests_disconnected c :
  _connected c = false -> _sendQueuedRequests c = c.
Proof. intros Hc. unfold _sendQueuedRequests. by rewrite Hc. Qed.

(** What [_send] does to the queue and to the transport. *)
Lemma _send_outgoing message c :
  let c' := _send message c in
  _responsePromiseMap c' = _responsePromiseMap c
  /\ _nextMessageId c' = _nextMessageId c
  /\ _consoleLog c' = _consoleLog c
  /\ _connected c' = _connected c
  /\ promises c' = promises c
  /\ if _connected c
     then sent c' = sent c ++ _requestQueue c ++ [JSON_stringify message]
          /\ _requestQueue c' = []
     else sent c' = sent c
          /\ _requestQueue c' = _requestQueue c ++ [JSON_stringify message].
Proof.
  unfold _send. destruct (_connected c) eqn:Hc.
  - rewrite _sendQueuedRequests_connected by done. simpl.
    repeat split; try done.
    unfold sent. simpl. by rewrite omap_app, selected_flushed.
  - rewrite _sendQueuedRequests_disconnected by done. by destruct c.
Qed.

Lemma didConnect_outgoing c :
  let c' := didConnect c in
  _responsePromiseMap c' = _responsePromiseMap c
  /\ _nextMessageId c' = _nextMessageId c
  /\ _consoleLog c' = _consoleLog c
  /\ _connected c' = true
  /\ promises c' = promises c
  /\ if _connected c
     then c' = c
     else sent c' = sent c ++ _requestQueue c /\ _requestQueue c' = [].
Proof.
  unfold didConnect. destruct (_connected c) eqn:Hc; simpl; [by rewrite Hc|].
  rewrite _sendQueuedRequests_connected by done. simpl.
  repeat split; try done.
  unfold sent. simpl. by rewrite omap_app, selected_flushed.
Qed.


(** [processMessage] touches neither the queue, nor the connection, nor
    the transport, nor the table, nor the id counter. *)
Lemma processMessage_frame messageStr c :
  let c' := processMessage messageStr c in
  _responsePromiseMap c' = _responsePromiseMap c
  /\ _nextMessageId c' = _nextMessageId c
  /\ _consoleLog c' = _consoleLog c
  /\ _requestQueue c' = _requestQueue c
  /\ _connected c' = _connected c
  /\ sent c' = sent c.
Proof.
  assert (Hlog : forall d,
    let c1 := _logMessage messageStr d c in
    _responsePromiseMap c1 = _responsePromiseMap c
    /\ _nextMessageId c1 = _nextMessageId c
    /\ _consoleLog c1 = _consoleLog c
    /\ _requestQueue c1 = _requestQueue c
    /\ _connected c1 = _connected c
    /\ sent c1 = sent c).
  { intros d. simpl. rewrite sent_logMessage. unfold _logMessage.
    by destruct c as [? ? [|] ? ? ? ?]. }
  assert (Hsettle : forall p st c1,
    _responsePromiseMap (settle p st c1) = _responsePromiseMap c1
    /\ _nextMessageId (settle p st c1) = _nextMessageId c1
    /\ _consoleLog (settle p st c1) = _consoleLog c1
    /\ _requestQueue (settle p st c1) = _requestQueue c1
    /\ _connected (settle p st c1) = _connected c1
    /\ sent (settle p st c1) = sent c1).
  { intros p st c1. rewrite sent_settle. unfold settle.
    by destruct (promises c1 !! p) as [[| |]|]. }
  specialize (Hlog Receive). simpl in Hlog.
  destruct Hlog as (H1 & H2 & H3 & H4 & H5 & H6).
  simpl. unfold processMessage.
  set (c1 := _logMessage messageStr Receive c) in *.
  rewrite <- H1, <- H2, <- H3, <- H4, <- H5, <- H6.
  repeat match goal with
  | |- context [match ?x with _ => _ end] => destruct x
  end;
  unfold resolve, reject;
  first [ apply Hsettle | by rewrite sent_emit ].
Qed.

End Sending.

(** ** [call] and [notify] *)

Section Calling.
Import Client.
Context {engine : Platform}.

(** The state in which [call] hands its request to [_send]. *)
Local Abbreviation registered method params c :=
  (with_responsePromiseMap
     (<[_nextMessageId c + 1 := length (promises c)]> (_responsePromiseMap c))
     (with_promises (promises c ++ [Pending])
        (with_nextMessageId (_nextMessageId c + 1) c)))
  (only parsing).

Lemma call_accepted method params c :
  params_rejected params = false ->
  call method params c
  = (_send (request (_nextMessageId c + 1) method params) (registered method params c),
     Normal (length (promises c))).
Proof. intros Hp. unfold call. by rewrite Hp. Qed.

Lemma call_rejected method params c :
  params_rejected params = true ->
  call method params c
  = (c, Throw (new_Error "Params must be structured data (Array | Object)")).
Proof. intros Hp. unfold call. by rewrite Hp. Qed.

Lemma notify_accepted method params c :
  params_rejected params = false ->
  notify method params c = (_send (notification method params) c, Normal tt).
Proof. intros Hp. unfold notify. by rewrite Hp. Qed.

Lemma notify_rejected method params c :
  params_rejected params = true ->
  notify method params c
  = (c, Throw (new_Error "Params must be structured data (Array | Object)")).
Proof. intros Hp. unfold notify. by rewrite Hp. Qed.

Lemma params_rejected_typeof params :
  params_rejected params = true
  <-> typeof params ≠ TUndefined /\ typeof params ≠ TObject.
Proof. unfold params_rejected. destruct (typeof params); simpl; intuition congruence. Qed.

End Calling.

(** ** Histories *)

Section Histories.
Import Client History.
Context {engine : Platform}.

(** The invariant of the queue: once connected it is empty, and before
    that nothing has reached the transport. *)
Local Abbreviation queue_invariant c :=
  (if _connected c then _requestQueue c = [] else sent c = []) (only parsing).




(** C10: [null] passes the guard of [call] and of [notify], whose test
    is on [typeof] alone: neither throws, and the request (the
    notification) whose [params] is [null] is serialized and handed to
    the transport, behind whatever was queued, or queued when the peer is
    not connected. *)
Theorem null_params_pass_the_guard (method : string) (c : Client) :
  let req := request (_nextMessageId c + 1) method JNull in
  let note := notification method JNull in
  let c1 := (call method JNull c).1 in
  let c2 := (notify method JNull c).1 in
  typeof JNull = TObject
  /\ (call method JNull c).2 = Normal (length (promises c))
  /\ (notify method JNull c).2 = Normal tt
  /\ prop req "params" = JNull
  /\ prop note "params" = JNull
  /\ (if _connected c
      then sent c1 = sent c ++ _requestQueue c ++ [JSON_stringify req]
           /\ _requestQueue c1 = []
      else sent c1 = sent c
           /\ _requestQueue c1 = _requestQueue c ++ [JSON_stringify req])
  /\ (if _connected c
      then sent c2 = sent c ++ _requestQueue c ++ [JSON_stringify note]
           /\ _requestQueue c2 = []
      else sent c2 = sent c
           /\ _requestQueue c2 = _requestQueue c ++ [JSON_stringify note]).
Proof.
  intros req note c1 c2. subst c1 c2.
  rewrite call_accepted, notify_accepted by done. simpl.
  repeat split; try done.
  - match goal with |- context [_send ?m ?c0] =>
      destruct (_send_outgoing m c0) as (_ & _ & _ & _ & _ & Hout) end.
    exact Hout.
  - destruct (_send_outgoing note c) as (_ & _ & _ & _ & _ & Hout).
    exact Hout.
Qed.

(** C3, amended: a [params] whose [typeof] is neither ['undefined'] nor
    ['object'] (a number, a string, a boolean, a function) makes [call]
    and [notify] throw the error whose message is 'Params must be
    structured data (Array | Object)', and leaves the peer as it was: no
    id is allocated, the table gets no entry, nothing is queued or sent. *)
Theorem unstructured_params_throw (method : string) (params : JsValue) (c : Client) :
  typeof params ≠ TUndefined ->
  typeof params ≠ TObject ->
  call method params c
    = (c, Throw (new_Error "Params must be structured data (Array | Object)"))
  /\ notify method params c
    = (c, Throw (new_Error "Params must be structured data (Array | Object)"))
  /\ prop (new_Error "Params must be structured data (Array | Object)") "message"
    = JString "Params must be structured data (Array | Object)".
Proof.
  intros Hu Ho.
  assert (params_rejected params = true) by by apply params_rejected_typeof.
  by rewrite call_rejected, notify_rejected.
Qed.

End Histories.

(** ** Transports that call back or fail *)

Section Transports.
Import Client History.
Context {engine : Platform}.

(** A transport that returns from [sendMessage] without having submitted
    anything is the transport that only takes the string: every method
    does what it does in [Client], and needs no more than one unit of
    fuel. *)
Local Abbreviation only_takes transport :=
  (forall messageStr : string,
     transport messageStr = Reentrant.mkReaction [] None) (only parsing).








End Transports.

(** ** Responses *)

Section Responses.
Import Client.
Context {engine : Platform}.

Lemma promises_logMessage m d c : promises (_logMessage m d c) = promises c.
Proof. unfold _logMessage. by destruct (_consoleLog c). Qed.

Lemma promises_emit event args c : promises (emit event args c) = promises c.
Proof. done. Qed.

Lemma table_get_logMessage m d c id :
  table_get (_logMessage m d c) id = table_get c id.
Proof. unfold _logMessage. by destruct (_consoleLog c). Qed.


(** A promise settles once: settling again changes nothing. *)
Lemma settle_again p st st' c c' :
  st ≠ Pending ->
  promises c' = promises (settle p st c) ->
  promises (settle p st' c') = promises c'.
Proof.
  intros Hst Heq. unfold settle in *.
  destruct (promises c !! p) as [[| |]|] eqn:Hp; simpl in Heq.
  - assert (promises c' !! p = Some st) as Hp'.
    { rewrite Heq. apply list_lookup_insert_eq. by eapply lookup_lt_Some. }
    rewrite Hp'. by destruct st.
  - by rewrite Heq, Hp.
  - by rewrite Heq, Hp.
  - by rewrite Heq, Hp.
Qed.

(** The three branches for a response whose id is in the table. *)
Lemma processMessage_response messageStr message promise c :
  JSON_parse messageStr = inl message ->
  truthy message = true ->
  truthy (prop message "id") = true ->
  table_get c (prop message "id") = Some promise ->
  processMessage messageStr c
  = let c := _logMessage messageStr Receive c in
    if truthy (prop message "result") then
      resolve promise (prop message "result") c
    else if truthy (prop message "error") then
      reject promise
             (Object_assign (new_Error "Remote error") (prop message "error")) c
    else
      emit (JString "error")
           [new_Error ("Response must have result or error: " +:+ messageStr)] c.
Proof.
  intros Hparse Hmsg Hid Hget. unfold processMessage.
  by rewrite Hparse, Hmsg, Hid, table_get_logMessage, Hget.
Qed.

Lemma settle_not_pending p st c :
  promises c !! p ≠ Some Pending -> settle p st c = c.
Proof.
  intros Hp. unfold settle. by destruct (promises c !! p) as [[| |]|].
Qed.

Lemma settle_keeps_settled p q st st' c :
  promises c !! p = Some st -> st ≠ Pending ->
  promises (settle q st' c) !! p = Some st.
Proof.
  intros Hp Hst. unfold settle.
  destruct (promises c !! q) as [[| |]|] eqn:Hq; simpl; try done.
  destruct (decide (q = p)) as [->|Hne]; [congruence|].
  by rewrite list_lookup_insert_ne.
Qed.

(** The same message delivered twice: the second delivery changes no
    promise. *)
Lemma processMessage_twice messageStr c :
  promises (processMessage messageStr (processMessage messageStr c))
  = promises (processMessage messageStr c).
Proof.
  destruct (processMessage_frame messageStr c) as (Htable & _).
  remember (processMessage messageStr c) as c' eqn:Hc'.
  assert (Hget : forall id, table_get (_logMessage messageStr Receive c') id
                            = table_get (_logMessage messageStr Receive c) id).
  { intros id. rewrite !table_get_logMessage. destruct id; simpl; try done.
    by rewrite Htable. }
  unfold processMessage in Hc' |- *.
  destruct (JSON_parse messageStr) as [message|e]; [|by rewrite ?promises_emit, ?promises_logMessage].
  destruct (truthy message); simpl in *; [|by rewrite ?promises_emit, ?promises_logMessage].
  destruct (truthy (prop message "id")); simpl in *.
  - rewrite Hget.
    destruct (table_get (_logMessage messageStr Receive c) (prop message "id"))
      as [promise|]; [|by rewrite ?promises_emit, ?promises_logMessage].
    destruct (truthy (prop message "result")).
    { unfold resolve in *.
      transitivity (promises (_logMessage messageStr Receive c'));
        [|apply promises_logMessage].
      eapply settle_again; [|by rewrite promises_logMessage, Hc']. done. }
    destruct (truthy (prop message "error")); [|by rewrite ?promises_emit, ?promises_logMessage].
    unfold reject in *.
    transitivity (promises (_logMessage messageStr Receive c'));
      [|apply promises_logMessage].
    eapply settle_again; [|by rewrite promises_logMessage, Hc']. done.
  - destruct (truthy (prop message "method"));
      by rewrite ?promises_emit, ?promises_logMessage.
Qed.

(** Only an object has a property that is truthy. *)
Lemma truthy_prop message k : truthy (prop message k) = true -> truthy message = true.
Proof. by destruct message. Qed.

(** No message changes a promise that is settled. *)
Lemma processMessage_keeps_settled messageStr c p st :
  promises c !! p = Some st -> st ≠ Pending ->
  promises (processMessage messageStr c) !! p = Some st.
Proof.
  intros Hp Hst.
  assert (Hlog : promises (_logMessage messageStr Receive c) !! p = Some st)
    by by rewrite promises_logMessage.
  unfold processMessage.
  destruct (JSON_parse messageStr) as [message|e]; [|by rewrite promises_emit].
  destruct (truthy message); cbn [negb]; [|by rewrite promises_emit].
  destruct (truthy (prop message "id")).
  - destruct (table_get (_logMessage messageStr Receive c) (prop message "id"))
      as [promise|]; [|by rewrite promises_emit].
    destruct (truthy (prop message "result"));
      [by apply settle_keeps_settled|].
    destruct (truthy (prop message "error"));
      [by apply settle_keeps_settled | by rewrite promises_emit].
  - destruct (truthy (prop message "method")); by rewrite promises_emit.
Qed.

(** C2, amended: [processMessage] leaves the pending-call table as it is
    in every branch, so the id of an answered call stays in it, and no
    message changes a promise that is settled.  A later message that
    carries the id of an answered call is therefore taken as a response
    to the same completion handle, through the same three branches, and
    never as a response without a pending request: with a truthy result
    or a truthy error it settles the handle again, which changes no
    promise and emits no event (the peer is as it was, but for the
    console line of a logging peer); with neither it emits 'error' with
    'Response must have result or error'. *)
Theorem answered_id_stays_in_table (first second : string) (c : Client) :
  let c1 := processMessage first c in
  _responsePromiseMap c1 = _responsePromiseMap c
  /\ (forall id, table_get c1 id = table_get c id)
  /\ (forall p st, promises c !! p = Some st -> st ≠ Pending ->
                   promises c1 !! p = Some st)
  /\ promises (processMessage first c1) = promises c1
  /\ forall message promise,
       JSON_parse second = inl message ->
       truthy (prop message "id") = true ->
       table_get c (prop message "id") = Some promise ->
       promises c1 !! promise ≠ Some Pending ->
       processMessage second c1
       = if truthy (prop message "result") || truthy (prop message "error")
         then _logMessage second Receive c1
         else emit (JString "error")
                   [new_Error ("Response must have result or error: " +:+ second)]
                   (_logMessage second Receive c1).
Proof.
  intros c1. subst c1.
  destruct (processMessage_frame first c) as (Htable & _).
  assert (Hget : forall id, table_get (processMessage first c) id = table_get c id).
  { intros [ | | | | | | | | | ]; simpl; try done. by rewrite Htable. }
  split; [exact Htable|]. split; [exact Hget|].
  split; [intros p st; apply processMessage_keeps_settled|].
  split; [apply processMessage_twice|].
  intros message promise Hparse Hid Hpromise Hsettled.
  pose proof (truthy_prop _ _ Hid) as Hmsg.
  rewrite <- Hget in Hpromise.
  rewrite (processMessage_response second message promise _ Hparse Hmsg Hid Hpromise).
  cbv zeta.
  assert (Hlog : promises (_logMessage second Receive (processMessage first c)) !! promise
                 ≠ Some Pending) by by rewrite promises_logMessage.
  destruct (truthy (prop message "result")); simpl.
  { by apply settle_not_pending. }
  destruct (truthy (prop message "error")); [|done].
  by apply settle_not_pending.
Qed.


End Responses.

(** ** The code on concrete messages *)

Section Evaluated.
Import Client.

(** A response whose result and error are both falsy takes the third
    branch, whatever fields it has. *)
Lemma response_with_falsy_result_and_error {engine : Platform}
  messageStr message promise c :
  JSON_parse messageStr = inl message ->
  truthy message = true ->
  truthy (prop message "id") = true ->
  table_get c (prop message "id") = Some promise ->
  truthy (prop message "result") = false ->
  truthy (prop message "error") = false ->
  processMessage messageStr c
  = emit (JString "error")
         [new_Error ("Response must have result or error: " +:+ messageStr)]
         (_logMessage messageStr Receive c).
Proof.
  intros Hparse Hmsg Hid Hget Hresult Herror.
  rewrite (processMessage_response messageStr message promise c) by done.
  simpl. by rewrite Hresult, Herror.
Qed.

(** C1: the responses [{id: 1, result: r}] for [r] among [0], [false],
    [null] and the empty string, received while call 1 is pending, parse
    to an object whose [result] is present; each leaves the promise of
    the call pending and emits 'error' with 'Response must have result or
    error', where the result 42 fulfils the promise. *)
Theorem falsy_result_is_not_resolved :
  Forall
    (fun '(result, value) =>
       let text := Engine.response_text "1" result in
       let c := processMessage (engine := Engine.reference) text
                               Scenario.one_call_pending in
       Engine.parse text = inl (JObject [("id", JNumber 1); ("result", value)])
       /\ promises c !! 0%nat = Some Pending
       /\ effects c
          = effects Scenario.one_call_pending
            ++ [EmitEvent (JString "error")
                  [new_Error (engine := Engine.reference)
                     ("Response must have result or error: " +:+ text)]])
    [("0", JNumber 0); ("false", JBool false); ("null", JNull);
     (Engine.quoted "", JString "")]
  /\ promises (processMessage (engine := Engine.reference)
                 (Engine.response_text "1" "42") Scenario.one_call_pending)
       !! 0%nat
     = Some (Fulfilled (JNumber 42)).
Proof. split; [repeat constructor|]; by vm_compute. Qed.


(** With a transport that fails, [didConnect] throws at the first message
    of the queue: the peer is connected, the queue is empty, and [b] has
    not reached the transport. *)
Lemma failing_transport_drops_the_queue :
  (fun c => (_connected c, _requestQueue c, sent c))
    <$> Reentrant.run (engine := Engine.reference) Scenario.failing 3
          Scenario.two_queued_then_connected (new_Client false)
  = Some (true, [], [Scenario.note_text "a"]).
Proof. by vm_compute. Qed.


(** C2 as stated fails: after the response to call 1 has fulfilled its
    promise, id 1 is still in the table, and the same response delivered
    again emits nothing. *)
Lemma answered_id_is_not_removed :
  promises Scenario.answered_once !! 0%nat = Some (Fulfilled (JNumber 42))
  /\ _responsePromiseMap Scenario.answered_once !! 1 = Some 0%nat
  /\ effects Scenario.answered_twice = effects Scenario.answered_once
  /\ promises Scenario.answered_twice = promises Scenario.answered_once.
Proof. by vm_compute. Qed.

(** C3 as stated fails at [null], which is neither absent, nor an array,
    nor an object: [call] does not throw but returns a promise, having
    allocated id 1, recorded the handle and queued the request. *)
Lemma null_params_do_not_throw :
  JNull ≠ JUndefined
  /\ (forall items, JNull ≠ JArray items)
  /\ (forall fields, JNull ≠ JObject fields)
  /\ Scenario.called_with_null.2 = Normal 0%nat
  /\ _nextMessageId Scenario.called_with_null.1 = 1
  /\ _responsePromiseMap Scenario.called_with_null.1 !! 1 = Some 0%nat
  /\ _requestQueue Scenario.called_with_null.1
     = [Engine.stringify (request 1 "m" JNull)]
  /\ (notify (engine := Engine.reference) "m" JNull (new_Client false)).2
     = Normal tt.
Proof. repeat split; try done; by vm_compute. Qed.

Lemma unstructured_params_throw_witness :
  (typeof (JNumber 5) ≠ TUndefined /\ typeof (JNumber 5) ≠ TObject)
  /\ call (engine := Engine.reference) "m" (JNumber 5) Scenario.one_call_pending
     = (Scenario.one_call_pending,
        Throw (new_Error (engine := Engine.reference)
                 "Params must be structured data (Array | Object)")).
Proof.
  split; [split; discriminate|].
  apply (unstructured_params_throw (engine := Engine.reference)
           "m" (JNumber 5) Scenario.one_call_pending); discriminate.
Defined.


(** An error object that carries the key [__proto__]: the assignment goes
    to the setter, so the key becomes no own property; the prototype of
    the rejection is replaced, here by none, and its own [message] is the
    remote one. *)
Lemma remote_error_with_proto_key :
  promises (processMessage (engine := Engine.reference)
              (Engine.error_text "1" Scenario.boom_proto)
              Scenario.one_call_pending) !! 0%nat
  = Some (Rejected
            (JReproto JNull
               (JError "Error" [("message", JString "boom");
                                ("stack", JString "Error")]))).
Proof. by vm_compute. Qed.

Lemma answered_id_stays_in_table_witness :
  processMessage (engine := Engine.reference)
    (Engine.response_text "1" "0") Scenario.answered_once
  = emit (JString "error")
         [new_Error (engine := Engine.reference)
            ("Response must have result or error: "
               +:+ Engine.response_text "1" "0")]
         (_logMessage (Engine.response_text "1" "0") Receive Scenario.answered_once).
Proof.
  destruct (answered_id_stays_in_table (engine := Engine.reference)
              (Engine.response_text "1" "42") (Engine.response_text "1" "0")
              Scenario.one_call_pending) as (_ & _ & _ & _ & Hsecond).
  apply (Hsecond (JObject [("id", JNumber 1); ("result", JNumber 0)]) 0%nat).
  - by vm_compute.
  - reflexivity.
  - by vm_compute.
  - by vm_compute.
Defined.

End Evaluated.

(** ** The proxy namespaces *)

Section Namespaces.
Import Client.

Lemma fresh_member_alloc prefix prop r :
  exists cell, fresh_member prefix prop r = alloc cell r.
Proof.
  unfold fresh_member, api. destruct prefix as [prefix|]; [|by eexists].
  repeat match goal with |- context [if ?b then _ else _] => destruct b end;
    by eexists.
Qed.

Lemma proxy_get_cached t prop r prefix own m :
  heap r !! t = Some (CTarget prefix own) ->
  target_read own prop = Some m ->
  proxy_get t prop r = Some (r, m).
Proof. intros Ht Hread. unfold proxy_get. by rewrite Ht, Hread. Qed.

(** The three ways in which the trap returns. *)
Lemma proxy_get_inv t prop r r' m :
  proxy_get t prop r = Some (r', m) ->
  exists prefix own,
    heap r !! t = Some (CTarget prefix own)
    /\ ((target_read own prop = Some m /\ r' = r)
        \/ (target_read own prop = None /\ m = MObjectPrototype /\ r' = r)
        \/ (target_read own prop = None
            /\ exists cell,
                 m = MRef (length (heap r))
                 /\ r' = mkRealm (peer r)
                           (<[t := CTarget prefix (<[prop := m]> own)]>
                              (heap r ++ [cell])))).
Proof.
  unfold proxy_get. intros Hget.
  destruct (heap r !! t) as [[prefix own| | |]|] eqn:Ht; try done.
  exists prefix, own. split; [done|].
  destruct (target_read own prop) as [m0|] eqn:Hread.
  { left. by injection Hget as <- <-. }
  right. destruct (String.eqb prop "__proto__" || String.eqb prop "prototype").
  { left. by injection Hget as <- <-. }
  right. split; [done|].
  destruct (fresh_member_alloc prefix prop r) as [cell Hcell].
  rewrite Hcell in Hget. unfold alloc, store_member in Hget. simpl in Hget.
  assert (Hlt : (t < length (heap r ++ [cell]))%nat).
  { rewrite length_app. apply lookup_lt_Some in Ht. lia. }
  rewrite list_lookup_insert_eq in Hget by done.
  unfold target_read in Hget at 1. rewrite lookup_insert_eq in Hget.
  simpl in Hget. injection Hget as <- <-. by exists cell.
Qed.

Lemma proxy_get_peer t prop r r' m :
  proxy_get t prop r = Some (r', m) -> peer r' = peer r.
Proof.
  intros Hget. apply proxy_get_inv in Hget as (prefix & own & _ & Hcases).
  destruct Hcases as [[_ ->]|[(_ & _ & ->)|(_ & cell & _ & ->)]]; done.
Qed.

(** After an access the target holds the value for the property, unless
    the value is [Object.prototype] given for [prototype]. *)
Lemma proxy_get_stored t prop r r' x :
  proxy_get t prop r = Some (r', MRef x) ->
  exists prefix own,
    heap r' !! t = Some (CTarget prefix own)
    /\ target_read own prop = Some (MRef x).
Proof.
  intros Hget. apply proxy_get_inv in Hget as (prefix & own & Ht & Hcases).
  destruct Hcases as [[Hread ->]|[(_ & ? & _)|(_ & cell & Hm & ->)]]; [|done|].
  - by exists prefix, own.
  - exists prefix, (<[prop := MRef x]> own). simpl. split.
    + apply list_lookup_insert_eq. rewrite length_app.
      apply lookup_lt_Some in Ht. lia.
    + unfold target_read. by rewrite lookup_insert_eq.
Qed.

(** An access never changes what another property, or another
    namespace, has cached. *)
Lemma proxy_get_preserves t prop prefix own m t' prop' r r' m' :
  heap r !! t = Some (CTarget prefix own) ->
  target_read own prop = Some m ->
  proxy_get t' prop' r = Some (r', m') ->
  exists own',
    heap r' !! t = Some (CTarget prefix own')
    /\ target_read own' prop = Some m.
Proof.
  intros Ht Hread Hget.
  apply proxy_get_inv in Hget as (prefix' & own0 & Ht' & Hcases).
  destruct Hcases as [[_ ->]|[(_ & _ & ->)|(Hnone & cell & _ & ->)]];
    [by exists own|by exists own|].
  simpl. destruct (decide (t = t')) as [<-|Hne].
  - rewrite Ht in Ht'. injection Ht' as <- <-.
    exists (<[prop' := m']> own). split.
    + apply list_lookup_insert_eq. rewrite length_app.
      apply lookup_lt_Some in Ht. lia.
    + assert (prop ≠ prop') by (intros ->; congruence).
      unfold target_read in *. by rewrite lookup_insert_ne.
  - exists own. split; [|done].
    rewrite list_lookup_insert_ne by done.
    rewrite lookup_app_l; [done|]. by eapply lookup_lt_Some.
Qed.

Lemma proxy_get_again t prop r r1 m :
  proxy_get t prop r = Some (r1, m) -> proxy_get t prop r1 = Some (r1, m).
Proof.
  intros Hget.
  destruct (proxy_get_inv _ _ _ _ _ Hget) as (prefix & own & Ht & Hcases).
  destruct Hcases as [[Hread ->]|[(_ & _ & ->)|(_ & cell & Hm & Hr1)]];
    [done|done|].
  rewrite Hm in Hget. destruct (proxy_get_stored _ _ _ _ _ Hget) as (p & o & Hs & Hr).
  rewrite Hm. by eapply proxy_get_cached.
Qed.

(** C9: an access to a property of a namespace, repeated, returns the
    identical value and leaves the peer and the objects as the first
    access left them, so it registers no listener and issues no call and
    no notification; no access changes the peer at all.  The same holds
    of a path of two properties, [root.Foo.bar]. *)
Theorem namespace_access_is_cached (t : nat) (a : string) (r r1 : Realm) (m : Member) :
  proxy_get t a r = Some (r1, m) ->
  proxy_get t a r1 = Some (r1, m)
  /\ peer r1 = peer r
  /\ forall b r2 v,
       proxy_get2 t a b r = Some (r2, v) ->
       proxy_get2 t a b r2 = Some (r2, v) /\ peer r2 = peer r.
Proof.
  intros Hget. split; [exact (proxy_get_again _ _ _ _ _ Hget)|].
  split; [exact (proxy_get_peer _ _ _ _ _ Hget)|].
  intros b r2 v Hpath. unfold proxy_get2 in Hpath. rewrite Hget in Hpath.
  destruct m as [| |t']; try done.
  destruct (proxy_get_stored _ _ _ _ _ Hget) as (prefix & own & Ht & Hread).
  destruct (proxy_get_preserves _ _ _ _ _ _ _ _ _ _ Ht Hread Hpath)
    as (own' & Ht2 & Hread2).
  split.
  - unfold proxy_get2. rewrite (proxy_get_cached _ _ _ _ _ _ Ht2 Hread2).
    exact (proxy_get_again _ _ _ _ _ Hpath).
  - rewrite (proxy_get_peer _ _ _ _ _ Hpath). exact (proxy_get_peer _ _ _ _ _ Hget).
Qed.

End Namespaces.

(** ** The class registry *)

Section Registry.
Import ComponentSystem.
Context {engine : Platform}.

(** A class that carries a name, its own or an inherited one, is refused. *)
Lemma registerComponent_tagged componentName ref reg :
  has_tag reg ref = true ->
  registerComponent componentName (OfObject ref) reg
  = (reg, Throw (new_Error "The API you are trying to register is already registered")).
Proof. intros Htag. unfold registerComponent, _registerComponent. by rewrite Htag. Qed.

(** A name that is in the dictionary is refused, whatever is registered. *)
Lemma registerComponent_name_taken componentName api reg :
  name_in_registry reg componentName = true ->
  exists e, registerComponent componentName api reg = (reg, Throw e).
Proof.
  intros Hname. unfold registerComponent, _registerComponent.
  destruct api as [p|ref]; [by eexists|].
  destruct (has_tag reg ref); [by eexists|]. rewrite Hname. by eexists.
Qed.

(** What is not a function is refused. *)
Lemma registerComponent_not_a_class componentName api reg :
  match api with
  | OfPrimitive _ => True
  | OfObject ref => is_function reg ref = false
  end ->
  exists e, registerComponent componentName api reg = (reg, Throw e).
Proof.
  unfold registerComponent, _registerComponent.
  destruct api as [p|ref]; [by eexists|]. intros ->.
  destruct (has_tag reg ref); [by eexists|].
  destruct (name_in_registry reg componentName); by eexists.
Qed.

(** A registration that succeeds stores the name on the class and the
    class in the dictionary; [getComponentName] then returns the name,
    provided it is not the empty string. *)
Lemma registerComponent_succeeds componentName api reg reg' :
  registerComponent componentName api reg = (reg', Normal tt) ->
  exists ref,
    api = OfObject ref
    /\ tag_of reg' ref = Some componentName
    /\ has_tag reg' ref = true
    /\ registeredComponents reg' !! componentName = Some ref
    /\ name_in_registry reg' componentName = true
    /\ (componentName ≠ "" ->
        getComponentName api reg' = Normal (JString componentName)).
Proof.
  unfold registerComponent, _registerComponent.
  destruct api as [p|ref]; [done|].
  destruct (has_tag reg ref); [done|].
  destruct (name_in_registry reg componentName); [done|].
  destruct (is_function reg ref) eqn:Hfun; [|done].
  simpl. intros [= <-]. exists ref.
  unfold is_function in Hfun.
  destruct (objects reg !! ref) as [o|] eqn:Ho; [|done].
  assert (Hobj : objects (set_registered componentName ref (set_tag ref componentName reg))
                   !! ref
                 = Some (mkClassObject (callable o) (Some componentName) (ancestors o))).
  { unfold set_tag. rewrite Ho. simpl.
    apply list_lookup_insert_eq. by eapply lookup_lt_Some. }
  assert (Hread : read_tag (set_registered componentName ref (set_tag ref componentName reg))
                    ref = Some componentName).
  { unfold read_tag. by rewrite Hobj. }
  split; [done|]. split; [unfold tag_of; by rewrite Hobj|].
  split; [unfold has_tag; rewrite Hread; by apply bool_decide_eq_true_2|].
  assert (Hreg : registeredComponents
                   (set_registered componentName ref (set_tag ref componentName reg))
                   !! componentName = Some ref).
  { simpl. apply lookup_insert_eq. }
  split; [exact Hreg|]. split.
  - unfold name_in_registry. rewrite Hreg. by rewrite bool_decide_true by done.
  - intros Hname. unfold getComponentName. rewrite Hread. simpl.
    destruct (String.eqb componentName "") eqn:E; [|done].
    by apply String.eqb_eq in E.
Qed.

End Registry.

(** C6: a class registered under the empty name is tagged with it and
    entered in the dictionary under it, and registering it again is
    refused, but [getComponentName] answers [null] for it and not its
    name, where for the name [Foo] it answers [Foo]. *)
Theorem empty_name_reads_as_unregistered :
  let registered :=
    ComponentSystem.registerComponent (engine := Engine.reference)
      "" (ComponentSystem.OfObject 0) Scenario.one_class in
  let named :=
    ComponentSystem.registerComponent (engine := Engine.reference)
      "Foo" (ComponentSystem.OfObject 0) Scenario.one_class in
  registered.2 = Normal tt
  /\ ComponentSystem.tag_of registered.1 0 = Some ""
  /\ ComponentSystem.registeredComponents registered.1 !! "" = Some 0%nat
  /\ ComponentSystem.has_tag registered.1 0 = true
  /\ ComponentSystem.getComponentName (engine := Engine.reference)
       (ComponentSystem.OfObject 0) registered.1 = Normal JNull
  /\ ComponentSystem.getComponentName (engine := Engine.reference)
       (ComponentSystem.OfObject 0) named.1 = Normal (JString "Foo").
Proof. by vm_compute. Qed.

(** ** Lifecycle of the instances *)

Section Lifecycles.
Import ComponentSystem.

(** What visiting the entries of the instance map adds to the trace and
    to the diagnostics sink. *)
Local Abbreviation visits which entries :=
  (entries ≫= fun kc : string * Component =>
     HelperCalled which kc.2
       :: match hook_of which kc.2 with
          | Some _ => [HookCalled which kc.2]
          | None => []
          end) (only parsing).

Local Abbreviation reports which entries :=
  (entries ≫= fun kc : string * Component =>
     match hook_of which kc.2 with
     | Some (HookReturnsPromise (RejectsWith error)) =>
         [mkDiagnostic (failure_message which) kc.2 error]
     | _ => []
     end) (only parsing).

Local Abbreviation returns which :=
  (fun kc : string * Component =>
     forall error, hook_of which kc.2 ≠ Some (HookThrows error)) (only parsing).

(** For the hooks of [Hook], the helper throws what the hook throws, and
    throws nothing otherwise. *)
Lemma lifecycle_throws which component s error :
  (lifecycle which component s).2 = Throw error
  <-> hook_of which component = Some (HookThrows error).
Proof.
  unfold lifecycle.
  destruct (hook_of which component) as [[e| |[| |e]]|]; simpl;
    split; intros Heq; try done; by injection Heq as ->.
Qed.

(** The rejection of the promise a hook returns goes to the diagnostics
    sink, and the helper returns. *)
Lemma lifecycle_reports_rejection which component s error :
  hook_of which component = Some (HookReturnsPromise (RejectsWith error)) ->
  lifecycle which component s
  = (mkSystem (componentInstances s)
              (trace s ++ [HelperCalled which component; HookCalled which component])
              (diagnostics s ++ [mkDiagnostic (failure_message which) component error]),
     Normal tt).
Proof.
  intros Hhook. unfold lifecycle. rewrite Hhook. simpl.
  unfold console_error. simpl. by rewrite <- app_assoc.
Qed.

Lemma forEach_lifecycle which entries :
  forall s,
    Forall (returns which) entries ->
    forEach (lifecycle which) entries s
    = (mkSystem (componentInstances s)
                (trace s ++ visits which entries)
                (diagnostics s ++ reports which entries),
       Normal tt).
Proof.
  induction entries as [|[key component] rest IH]; intros s Hall.
  - destruct s. simpl. by rewrite !app_nil_r.
  - apply Forall_cons in Hall as [Hhead Hrest]. simpl in Hhead.
    simpl forEach. unfold lifecycle at 1.
    destruct (hook_of which component) as [[e| |[| |e]]|] eqn:Hhook;
      simpl; try (by destruct (Hhead e));
      rewrite IH by done; rewrite ?bind_cons; simpl; rewrite ?Hhook; simpl;
      by rewrite <- ?app_assoc, ?app_nil_r.
Qed.

(** X12: when no [componentWillUnmount] throws, [unmount] returns
    after its six steps, taken in order: the SIGKILL notification,
    [systemWillUnmount], the helper and the hook of every instance in the
    order of the map, the clearing of the map, the termination of the
    worker and [systemDidUnmount].  The reports it adds are one for each
    hook whose promise rejects, in whatever order. *)
Lemma unmount_sequence s :
  Forall (returns Unmount) (componentInstances s) ->
  (unmount s).2 = Normal tt
  /\ componentInstances (unmount s).1 = []
  /\ trace (unmount s).1
     = trace s
         ++ [Notified "SIGKILL"; Emitted "systemWillUnmount"]
         ++ visits Unmount (componentInstances s)
         ++ [InstancesCleared; WorkerTerminated; Emitted "systemDidUnmount"]
  /\ diagnostics (unmount s).1
     ≡ₚ diagnostics s ++ reports Unmount (componentInstances s).
Proof.
  intros Hall. unfold unmount, unmountComponent.
  rewrite forEach_lifecycle by done.
  unfold emit, notify, worker_terminate, super_enable, clear_instances, log.
  simpl. by rewrite <- !app_assoc.
Qed.

(** X13: when no [componentDidMount] throws, [enable] returns after it
    has emitted [systemWillEnable], called the helper and the hook of
    every instance in the order of the map and enabled the server peer,
    in this order; the map is as it was.  The reports it adds are one for
    each hook whose promise rejects, in whatever order. *)
Lemma enable_sequence s :
  Forall (returns Mount) (componentInstances s) ->
  (enable s).2 = Normal tt
  /\ componentInstances (enable s).1 = componentInstances s
  /\ trace (enable s).1
     = trace s
         ++ [Emitted "systemWillEnable"]
         ++ visits Mount (componentInstances s)
         ++ [ServerEnabled]
  /\ diagnostics (enable s).1
     ≡ₚ diagnostics s ++ reports Mount (componentInstances s).
Proof.
  intros Hall. unfold enable, mountComponent.
  rewrite forEach_lifecycle by done.
  unfold emit, notify, worker_terminate, super_enable, clear_instances, log.
  simpl. by rewrite <- !app_assoc.
Qed.

End Lifecycles.

(** C7: a hook that throws makes [unmountComponent] and [mountComponent]
    throw to their caller, with nothing reported to the diagnostics sink;
    [unmount] then throws as well, with the instance map as it was and
    the worker not terminated.  The rejection of a returned promise is
    reported and swallowed. *)
Theorem synchronous_hook_failure_propagates :
  let s := Scenario.system_of
             [("A", Scenario.quiet); ("B", Scenario.throwing); ("C", Scenario.quiet)] in
  (ComponentSystem.unmountComponent Scenario.throwing s).2 = Throw Scenario.boom_error
  /\ (ComponentSystem.mountComponent Scenario.throwing s).2 = Throw Scenario.boom_error
  /\ ComponentSystem.diagnostics (ComponentSystem.unmountComponent Scenario.throwing s).1 = []
  /\ (ComponentSystem.unmount s).2 = Throw Scenario.boom_error
  /\ ComponentSystem.componentInstances (ComponentSystem.unmount s).1
     = ComponentSystem.componentInstances s
  /\ (ComponentSystem.WorkerTerminated
        ∉ ComponentSystem.trace (ComponentSystem.unmount s).1)
  /\ (ComponentSystem.unmountComponent Scenario.rejecting s).2 = Normal tt
  /\ ComponentSystem.diagnostics (ComponentSystem.unmountComponent Scenario.rejecting s).1
     = [ComponentSystem.mkDiagnostic "Error unmounting component"
          Scenario.rejecting Scenario.boom_error].
Proof.
  repeat split; try by vm_compute.
  vm_compute. intros Hin. repeat (apply elem_of_cons in Hin as [Hin|Hin]; [done|]).
  by apply elem_of_nil in Hin.
Qed.

(** C8: with an instance whose hook throws, [unmount] stops at that
    hook, after the SIGKILL notification, [systemWillUnmount] and the
    instances before it: it neither visits the later instances, nor
    clears the map, nor terminates the worker, nor emits
    [systemDidUnmount]; and [enable] stops without enabling the server
    peer. *)
Theorem teardown_stops_at_a_throwing_hook :
  let s := Scenario.system_of
             [("A", Scenario.quiet); ("B", Scenario.throwing); ("C", Scenario.rejecting)] in
  ComponentSystem.trace (ComponentSystem.unmount s).1
  = [ComponentSystem.Notified "SIGKILL";
     ComponentSystem.Emitted "systemWillUnmount";
     ComponentSystem.HelperCalled ComponentSystem.Unmount Scenario.quiet;
     ComponentSystem.HelperCalled ComponentSystem.Unmount Scenario.throwing;
     ComponentSystem.HookCalled ComponentSystem.Unmount Scenario.throwing]
  /\ ComponentSystem.trace (ComponentSystem.enable s).1
     = [ComponentSystem.Emitted "systemWillEnable";
        ComponentSystem.HelperCalled ComponentSystem.Mount Scenario.quiet;
        ComponentSystem.HelperCalled ComponentSystem.Mount Scenario.throwing;
        ComponentSystem.HookCalled ComponentSystem.Mount Scenario.throwing]
  /\ (ComponentSystem.enable s).2 = Throw Scenario.boom_error.
Proof. by vm_compute. Qed.

(** Witness of C9: [root.Foo], read twice on the unprefixed namespace of
    a new peer. *)
Lemma namespace_access_is_cached_witness :
  Client.proxy_get 0 "Foo" Scenario.root = Some (Scenario.root_Foo, Client.MRef 1)
  /\ Client.proxy_get 0 "Foo" Scenario.root_Foo
     = Some (Scenario.root_Foo, Client.MRef 1).
Proof.
  split; [by vm_compute|].
  apply (namespace_access_is_cached 0 "Foo" Scenario.root Scenario.root_Foo
           (Client.MRef 1)).
  by vm_compute.
Defined.

(** * Further properties *)

(** ** Receiving *)

Section Receiving.
Import Client.
Context {engine : Platform}.

Lemma promises_settle p st c :
  promises (settle p st c)
  = match promises c !! p with
    | Some Pending => <[p := st]> (promises c)
    | _ => promises c
    end.
Proof. unfold settle. by destruct (promises c !! p) as [[| |]|]. Qed.

Lemma effects_settle p st c : effects (settle p st c) = effects c.
Proof. unfold settle. by destruct (promises c !! p) as [[| |]|]. Qed.

(** Every message ends in one [emit] or in one settlement. *)
Lemma processMessage_cases messageStr c :
  (exists event args,
     processMessage messageStr c
     = emit event args (_logMessage messageStr Receive c))
  \/ (exists message p st,
        st ≠ Pending
        /\ JSON_parse messageStr = inl message
        /\ table_get c (prop message "id") = Some p
        /\ processMessage messageStr c
           = settle p st (_logMessage messageStr Receive c)).
Proof.
  unfold processMessage.
  destruct (JSON_parse messageStr) as [message|e] eqn:Hparse; [|left; by eexists _, _].
  destruct (truthy message); simpl; [|left; by eexists _, _].
  destruct (truthy (prop message "id")).
  - rewrite table_get_logMessage.
    destruct (table_get c (prop message "id")) as [p|] eqn:Hget;
      [|left; by eexists _, _].
    destruct (truthy (prop message "result")).
    { right. eexists message, p, _. by repeat split. }
    destruct (truthy (prop message "error")); [|left; by eexists _, _].
    right. eexists message, p, _. by repeat split.
  - destruct (truthy (prop message "method")); left; by eexists _, _.
Qed.

(** X1: a received message either emits exactly one event and changes
    no promise, or emits nothing and settles the promise its id is
    correlated with; besides the line it may log, it does nothing else:
    nothing is sent or queued, and the table, the id counter and the
    connection stay as they are. *)
Theorem message_emits_once_or_settles (messageStr : string) (c : Client) :
  let c' := processMessage messageStr c in
  let logged := effects (_logMessage messageStr Receive c) in
  ((exists event args,
      effects c' = logged ++ [EmitEvent event args] /\ promises c' = promises c)
   \/ (exists message p,
         JSON_parse messageStr = inl message
         /\ table_get c (prop message "id") = Some p
         /\ effects c' = logged
         /\ forall q, q ≠ p -> promises c' !! q = promises c !! q))
  /\ sent c' = sent c
  /\ _requestQueue c' = _requestQueue c
  /\ _connected c' = _connected c
  /\ _responsePromiseMap c' = _responsePromiseMap c
  /\ _nextMessageId c' = _nextMessageId c.
Proof.
  intros c' logged.
  destruct (processMessage_frame messageStr c) as (Ht & Hn & _ & Hq & Hc & Hs).
  split; [|by repeat split].
  subst c' logged.
  destruct (processMessage_cases messageStr c)
    as [(event & args & ->)|(message & p & st & _ & Hparse & Hget & ->)].
  - left. exists event, args. split; [done|].
    by rewrite promises_emit, promises_logMessage.
  - right. exists message, p. repeat split; try done.
    + by rewrite effects_settle.
    + intros q Hq'. rewrite promises_settle, promises_logMessage.
      destruct (promises c !! p) as [[| |]|]; try done.
      by rewrite list_lookup_insert_ne.
Qed.

(** X2: correlation is by id alone: a message changes the state of a
    promise only if it parses to a value whose [id] is in the table for
    that promise, and only if the promise was pending. *)
Theorem only_the_pending_call_is_settled (messageStr : string) (c : Client) (q : nat) :
  promises (processMessage messageStr c) !! q ≠ promises c !! q ->
  exists message,
    JSON_parse messageStr = inl message
    /\ table_get c (prop message "id") = Some q
    /\ promises c !! q = Some Pending.
Proof.
  intros Hchanged.
  destruct (processMessage_cases messageStr c)
    as [(event & args & Heq)|(message & p & st & _ & Hparse & Hget & Heq)];
    rewrite Heq in Hchanged.
  - by rewrite promises_emit, promises_logMessage in Hchanged.
  - rewrite promises_settle, promises_logMessage in Hchanged.
    destruct (promises c !! p) as [[| |]|] eqn:Hp; try done.
    destruct (decide (q = p)) as [->|Hne].
    + by exists message.
    + by rewrite list_lookup_insert_ne in Hchanged.
Qed.


End Receiving.

(** ** Request ids *)

Section RequestIds.
Import Client History.
Context {engine : Platform}.

Local Abbreviation accepted op :=
  (match op with
   | OpCall _ params => negb (params_rejected params)
   | _ => false
   end) (only parsing).

(** The table holds exactly the ids allocated so far, each with the
    promise made for it. *)
Local Abbreviation ids_invariant c :=
  (0 <= _nextMessageId c
   /\ Z.of_nat (length (promises c)) = _nextMessageId c
   /\ forall id,
        _responsePromiseMap c !! id
        = if bool_decide (1 <= id <= _nextMessageId c)
          then Some (Z.to_nat (id - 1)) else None) (only parsing).

Lemma processMessage_promises_length messageStr c :
  length (promises (processMessage messageStr c)) = length (promises c).
Proof.
  destruct (processMessage_cases messageStr c)
    as [(event & args & ->)|(message & p & st & _ & _ & _ & ->)].
  - by rewrite promises_emit, promises_logMessage.
  - rewrite promises_settle, promises_logMessage.
    destruct (promises c !! p) as [[| |]|]; try done. apply length_insert.
Qed.

Lemma step_ids op c :
  ids_invariant c ->
  ids_invariant (step c op)
  /\ _nextMessageId (step c op)
     = _nextMessageId c + (if accepted op then 1 else 0).
Proof.
  intros (Hpos & Hlen & Htable).
  destruct op as [method params|method params| |messageStr|logConsole]; simpl.
  - destruct (params_rejected params) eqn:Hp; simpl.
    + rewrite call_rejected by done. simpl. rewrite Z.add_0_r. by repeat split.
    + rewrite call_accepted by done. simpl.
      match goal with |- context [_send ?m ?c0] =>
        destruct (_send_outgoing m c0) as (Ht & Hn & _ & _ & Hpr & _) end.
      simpl in Ht, Hn, Hpr. rewrite Ht, Hn, Hpr.
      split; [|done]. split; [lia|]. split; [rewrite length_app; simpl; lia|].
      intros id. destruct (decide (id = _nextMessageId c + 1)) as [->|Hne].
      * rewrite lookup_insert_eq, bool_decide_true by lia.
        f_equal. lia.
      * rewrite lookup_insert_ne by done. rewrite Htable.
        destruct (bool_decide_reflect (1 <= id <= _nextMessageId c)).
        -- by rewrite bool_decide_true by lia.
        -- by rewrite bool_decide_false by lia.
  - destruct (params_rejected params) eqn:Hp.
    + rewrite notify_rejected by done. simpl. rewrite Z.add_0_r. by repeat split.
    + rewrite notify_accepted by done. simpl.
      destruct (_send_outgoing (notification method params) c)
        as (Ht & Hn & _ & _ & Hpr & _).
      rewrite Ht, Hn, Hpr, Z.add_0_r. by repeat split.
  - destruct (didConnect_outgoing c) as (Ht & Hn & _ & _ & Hpr & _).
    rewrite Ht, Hn, Hpr, Z.add_0_r. by repeat split.
  - destruct (processMessage_frame messageStr c) as (Ht & Hn & _).
    rewrite Ht, Hn, processMessage_promises_length, Z.add_0_r. by repeat split.
  - rewrite Z.add_0_r. by destruct c.
Qed.

Lemma run_ids ops :
  forall c,
    ids_invariant c ->
    ids_invariant (run ops c)
    /\ _nextMessageId (run ops c)
       = _nextMessageId c
         + Z.of_nat (length (List.filter (fun op => accepted op) ops)).
Proof.
  induction ops as [|op rest IH]; intros c Hinv.
  - simpl. rewrite Z.add_0_r. by split.
  - destruct (step_ids op c Hinv) as [Hinv' Hnext].
    destruct (IH (step c op) Hinv') as [Hfinal Hcount].
    change (run (op :: rest) c) with (run rest (step c op)).
    split; [done|]. rewrite Hcount, Hnext. simpl.
    destruct (accepted op); simpl; lia.
Qed.

(** X4: request ids are 1, 2, 3, ... in the order of the accepted calls:
    in every state a peer reaches, the id counter is the number of calls
    accepted so far (a refused call consumes no id), one promise exists
    per accepted call, and the table holds exactly the ids from 1 to the
    counter, id [n] with the promise of the [n]-th accepted call. *)
Theorem request_ids_are_sequential (logConsole : bool) (ops : list Op) :
  let c := run ops (new_Client logConsole) in
  let calls := length (List.filter (fun op => accepted op) ops) in
  _nextMessageId c = Z.of_nat calls
  /\ length (promises c) = calls
  /\ forall id,
       _responsePromiseMap c !! id
       = if bool_decide (1 <= id <= Z.of_nat calls)
         then Some (Z.to_nat (id - 1)) else None.
Proof.
  intros c calls.
  destruct (run_ids ops (new_Client logConsole)) as [(Hpos & Hlen & Htable) Hnext].
  { repeat split; try done. intros id. simpl. rewrite lookup_empty.
    by rewrite bool_decide_false by lia. }
  fold c in Hpos, Hlen, Htable, Hnext. simpl in Hnext. fold calls in Hnext.
  split; [exact Hnext|]. split; [lia|].
  intros id. rewrite Htable. by rewrite Hnext.
Qed.

End RequestIds.

(** ** Calling through the namespaces *)

Section Forwarding.
Import Client.
Context {engine : Platform}.

(** The first access to a property that the target does not have. *)
Lemma proxy_get_fresh t prefix own prop cell r :
  heap r !! t = Some (CTarget prefix own) ->
  target_read own prop = None ->
  String.eqb prop "prototype" = false ->
  fresh_member prefix prop r = alloc cell r ->
  proxy_get t prop r
  = Some (mkRealm (peer r)
            (<[t := CTarget prefix (<[prop := MRef (length (heap r))]> own)]>
               (heap r ++ [cell])),
          MRef (length (heap r))).
Proof.
  intros Ht Hread Hproto Hcell. unfold proxy_get. rewrite Ht, Hread, Hproto.
  assert (String.eqb prop "__proto__" = false) as ->.
  { unfold target_read in Hread. destruct (own !! prop); [done|].
    by destruct (String.eqb prop "__proto__"). }
  simpl. rewrite Hcell. unfold alloc, store_member. simpl.
  rewrite list_lookup_insert_eq
    by (rewrite length_app; apply lookup_lt_Some in Ht; lia).
  unfold target_read. by rewrite lookup_insert_eq.
Qed.

(** [root.a]: the first access to [a] on a new unprefixed namespace makes
    the namespace of prefix [a.], with nothing stored on it. *)
Lemma root_access a r :
  target_read ∅ a = None ->
  String.eqb a "prototype" = false ->
  let t := length (heap r) in
  exists r1,
    proxy_get t a (api None r).1 = Some (r1, MRef (S t))
    /\ peer r1 = peer r
    /\ length (heap r1) = S (S t)
    /\ heap r1 !! S t = Some (CTarget (Some (a +:+ ".")) ∅).
Proof.
  intros Hread Hproto t. eexists. split.
  - unfold api, alloc. simpl.
    erewrite (proxy_get_fresh t None ∅ a); [| |done|done|reflexivity].
    + simpl. rewrite length_app. simpl. by rewrite Nat.add_1_r.
    + simpl. by rewrite lookup_app_r, Nat.sub_diag.
  - simpl. split; [done|]. rewrite !length_insert, !length_app. simpl.
    split; [subst t; lia|].
    rewrite list_lookup_insert_ne by (subst t; lia).
    rewrite lookup_app_r by (rewrite length_app; simpl; subst t; lia).
    rewrite length_app. simpl.
    by replace (S t - (length (heap r) + 1))%nat with 0%nat by (subst t; lia).
Qed.

(** A name that fails a length test on its bytes fails it on its UTF-16
    code units, of which there are no more. *)
Lemma length_test_false (test : bool) (n : nat) (b : string) :
  test && (n <? String.length b)%nat = false ->
  test && (n <? js_length b)%nat = false.
Proof.
  destruct test; [|done]. simpl. rewrite !Nat.ltb_ge.
  pose proof (js_length_le b). lia.
Qed.

(** X5: [api().a.b(...args)] is [call('a.b', args)].  For names [a] and
    [b] that are neither [prototype] nor a property every object has,
    and a [b] that is neither [on...] longer than three characters nor
    [emit...] longer than five, reading [a] and then [b] on a new
    unprefixed namespace and calling the result does to the peer what
    [call] does with method [a.b] and the arguments packed in an array;
    the accesses themselves leave the peer alone. *)
Theorem namespace_method_is_a_call (r : Realm) (a b : string) (args : list JsValue) :
  target_read ∅ a = None ->
  String.eqb a "prototype" = false ->
  target_read ∅ b = None ->
  String.eqb b "prototype" = false ->
  String.eqb (String.substring 0 2 b) "on" && (3 <? String.length b)%nat = false ->
  String.eqb (String.substring 0 4 b) "emit" && (5 <? String.length b)%nat = false ->
  exists r2 f,
    proxy_get2 (length (heap r)) a b (api None r).1 = Some (r2, f)
    /\ peer r2 = peer r
    /\ invoke f args r2
       = Some (mkRealm (call ((a +:+ ".") +:+ b) (JArray args) (peer r)).1 (heap r2),
               Normal tt).
Proof.
  intros Ha Hpa Hb Hpb Hon Hemit.
  destruct (root_access a r Ha Hpa) as (r1 & Hget1 & Hpeer1 & Hlen1 & Hns).
  unfold proxy_get2. rewrite Hget1.
  assert (Hcell : fresh_member (Some (a +:+ ".")) b r1
                  = alloc (CCall ((a +:+ ".") +:+ b)) r1).
  { unfold fresh_member.
    by rewrite (length_test_false _ _ _ Hon), (length_test_false _ _ _ Hemit). }
  rewrite (proxy_get_fresh _ _ _ _ _ _ Hns Hb Hpb Hcell).
  eexists _, _. split; [reflexivity|]. split; [done|].
  unfold invoke. simpl.
  rewrite list_lookup_insert_ne by lia.
  rewrite lookup_app_r, Nat.sub_diag by done. simpl.
  by rewrite Hpeer1.
Qed.

(** X6: [api().a.emitEvent(...args)] is [notify('a.Event', args)]: a
    property whose name starts with [emit] and has more than five UTF-16
    code units, which is what [prop.length > 5] counts, gives a function
    that sends the notification whose method is the prefix and what
    follows [emit]. *)
Theorem namespace_emit_is_a_notification
  (r : Realm) (a b : string) (args : list JsValue) :
  target_read ∅ a = None ->
  String.eqb a "prototype" = false ->
  target_read ∅ b = None ->
  String.eqb (String.substring 0 4 b) "emit" = true ->
  (5 < js_length b)%nat ->
  exists r2 f,
    proxy_get2 (length (heap r)) a b (api None r).1 = Some (r2, f)
    /\ peer r2 = peer r
    /\ invoke f args r2
       = Some (mkRealm (notify ((a +:+ ".") +:+ substr_from 4 b) (JArray args) (peer r)).1
                       (heap r2),
               Normal tt).
Proof.
  intros Ha Hpa Hb Hemit Hlen.
  destruct (root_access a r Ha Hpa) as (r1 & Hget1 & Hpeer1 & Hlen1 & Hns).
  unfold proxy_get2. rewrite Hget1.
  assert (Hpb : String.eqb b "prototype" = false).
  { destruct (String.eqb b "prototype") eqn:E; [|done].
    apply String.eqb_eq in E. by subst b. }
  assert (Hon : String.eqb (String.substring 0 2 b) "on" = false).
  { destruct (String.eqb (String.substring 0 2 b) "on") eqn:E; [|done].
    apply String.eqb_eq in E, Hemit.
    destruct b as [|x [|y b']]; simpl in E, Hemit; congruence. }
  assert (Hcell : fresh_member (Some (a +:+ ".")) b r1
                  = alloc (CNotify ((a +:+ ".") +:+ substr_from 4 b)) r1).
  { unfold fresh_member. rewrite Hon, Hemit. simpl.
    by rewrite (proj2 (Nat.ltb_lt _ _) Hlen). }
  rewrite (proxy_get_fresh _ _ _ _ _ _ Hns Hb Hpb Hcell).
  eexists _, _. split; [reflexivity|]. split; [done|].
  unfold invoke. simpl.
  rewrite list_lookup_insert_ne by lia.
  rewrite lookup_app_r, Nat.sub_diag by done. simpl.
  by rewrite Hpeer1.
Qed.

End Forwarding.

(** ** Registering, continued *)

Section Registering.
Import ComponentSystem.
Context {engine : Platform}.

(** X7: a class is registered at most once and a name at most once:
    after a registration has succeeded, registering the same class
    again, under any name, or anything under the same name, throws and
    leaves the registry as it is. *)
Theorem registration_is_exclusive
  (componentName : string) (api : Candidate) (reg reg' : Registry) :
  registerComponent componentName api reg = (reg', Normal tt) ->
  forall componentName' api',
    api' = api \/ componentName' = componentName ->
    exists e, registerComponent componentName' api' reg' = (reg', Throw e).
Proof.
  intros Hok componentName' api' Hsame.
  destruct (registerComponent_succeeds _ _ _ _ Hok)
    as (ref & -> & _ & Htag & _ & Hname & _).
  destruct Hsame as [->| ->].
  - eexists. by apply registerComponent_tagged.
  - by apply registerComponent_name_taken.
Qed.

(** X8: the name under which a class has been registered is read back:
    after a successful registration under a name that is not empty,
    [getComponentName] returns that name for the class, and the
    dictionary holds the class under the name. *)
Theorem registered_name_is_read_back
  (componentName : string) (ref : nat) (reg reg' : Registry) :
  registerComponent componentName (OfObject ref) reg = (reg', Normal tt) ->
  componentName ≠ "" ->
  getComponentName (OfObject ref) reg' = Normal (JString componentName)
  /\ registeredComponents reg' !! componentName = Some ref
  /\ objects reg' !! ref ≫= own_tag = Some componentName.
Proof.
  intros Hok Hname.
  destruct (registerComponent_succeeds _ _ _ _ Hok)
    as (ref' & [= <-] & Htag & _ & Hreg & _ & Hget).
  split; [by apply Hget|]. split; [exact Hreg | exact Htag].
Qed.

(** X9: no component can be named like a property every object has
    ([toString], [constructor], [__proto__], ...): the dictionary is a
    plain object, in which such a name is always present. *)
Theorem inherited_names_cannot_be_registered
  (componentName : string) (api : Candidate) (reg : Registry) :
  componentName ∈ Client.Object_prototype_names ->
  exists e, registerComponent componentName api reg = (reg, Throw e).
Proof.
  intros Hin. apply registerComponent_name_taken.
  unfold name_in_registry. rewrite (bool_decide_true _ Hin).
  apply orb_true_r.
Qed.

(** X10: a class that extends a registered class cannot be registered,
    and answers to the name of the class it extends: the name is looked
    up along the prototype chain. *)
Theorem subclass_answers_to_the_name_of_its_parent
  (reg : Registry) (sub parent : nat) (o : ClassObject)
  (rest : list nat) (parentName componentName : string) :
  objects reg !! sub = Some o ->
  own_tag o = None ->
  ancestors o = parent :: rest ->
  tag_of reg parent = Some parentName ->
  parentName ≠ "" ->
  registerComponent componentName (OfObject sub) reg
    = (reg, Throw (new_Error "The API you are trying to register is already registered"))
  /\ getComponentName (OfObject sub) reg = Normal (JString parentName).
Proof.
  intros Hsub Hown Hanc Hparent Hname.
  assert (Hread : read_tag reg sub = Some parentName).
  { unfold read_tag. rewrite Hsub, Hown, Hanc. simpl. by rewrite Hparent. }
  split.
  - apply registerComponent_tagged. unfold has_tag. rewrite Hread.
    by apply bool_decide_eq_true_2.
  - unfold getComponentName. rewrite Hread. simpl.
    destruct (String.eqb parentName "") eqn:E; [|done].
    by apply String.eqb_eq in E.
Qed.

End Registering.

(** ** Enabling and unmounting, continued *)

Section Repeating.
Import ComponentSystem.

(** X14: [unmount] does not remember that it has run: when no
    [componentWillUnmount] throws, a second [unmount] notifies SIGKILL,
    emits both events and terminates the worker once more, but the map
    being empty it calls no hook and reports nothing. *)
Theorem second_unmount_calls_no_hook (s : System) :
  Forall (fun kc : string * Component =>
            forall error, componentWillUnmount kc.2 ≠ Some (HookThrows error))
         (componentInstances s) ->
  (unmount s).2 = Normal tt
  /\ componentInstances (unmount s).1 = []
  /\ unmount (unmount s).1
     = (mkSystem []
          (trace (unmount s).1
             ++ [Notified "SIGKILL"; Emitted "systemWillUnmount"; InstancesCleared;
                 WorkerTerminated; Emitted "systemDidUnmount"])
          (diagnostics (unmount s).1),
        Normal tt).
Proof.
  intros Hall.
  assert (exists t d, unmount s = (mkSystem [] t d, Normal tt)) as (t & d & ->).
  { unfold unmount, unmountComponent. rewrite forEach_lifecycle by done.
    by eexists _, _. }
  split; [done|]. split; [done|].
  unfold unmount, emit, notify, worker_terminate, clear_instances, log. simpl.
  by rewrite <- !app_assoc.
Qed.

(** X15: [enable] does not remember that the instances are mounted:
    when no [componentDidMount] throws, every [enable] calls the hook of
    every instance of the map again, so two of them call each hook
    twice. *)
Theorem enable_twice_mounts_twice (s : System) :
  Forall (fun kc : string * Component =>
            forall error, componentDidMount kc.2 ≠ Some (HookThrows error))
         (componentInstances s) ->
  let hooks (t : list Event) :=
    List.filter (fun e => match e with HookCalled _ _ => true | _ => false end) t in
  let mounted :=
    componentInstances s ≫= fun kc : string * Component =>
      match componentDidMount kc.2 with
      | Some _ => [HookCalled Mount kc.2]
      | None => []
      end in
  (enable (enable s).1).2 = Normal tt
  /\ hooks (trace (enable (enable s).1).1) = hooks (trace s) ++ mounted ++ mounted.
Proof.
  intros Hall hooks mounted.
  assert (Hvisits : forall entries : list (string * Component),
    List.filter (fun e => match e with HookCalled _ _ => true | _ => false end)
      (entries ≫= fun kc : string * Component =>
         HelperCalled Mount kc.2
           :: match componentDidMount kc.2 with
              | Some _ => [HookCalled Mount kc.2]
              | None => []
              end)
    = entries ≫= fun kc : string * Component =>
        match componentDidMount kc.2 with
        | Some _ => [HookCalled Mount kc.2]
        | None => []
        end).
  { induction entries as [|[k c] rest IH]; [done|].
    rewrite !bind_cons. simpl in *.
    rewrite List.filter_app. f_equal; [|exact IH].
    by destruct (componentDidMount c). }
  assert (Henable : forall s0 : System,
    Forall (fun kc : string * Component =>
              forall error, hook_of Mount kc.2 ≠ Some (HookThrows error))
           (componentInstances s0) ->
    exists d,
      enable s0
      = (mkSystem (componentInstances s0)
           (trace s0 ++ [Emitted "systemWillEnable"]
              ++ (componentInstances s0 ≫= fun kc : string * Component =>
                    HelperCalled Mount kc.2
                      :: match hook_of Mount kc.2 with
                         | Some _ => [HookCalled Mount kc.2]
                         | None => []
                         end)
              ++ [ServerEnabled]) d,
         Normal tt)).
  { intros s0 H0. unfold enable, mountComponent.
    rewrite forEach_lifecycle by done.
    unfold emit, super_enable, log. simpl. eexists. by rewrite <- !app_assoc. }
  destruct (Henable s Hall) as [d ->]. cbn [fst snd].
  destruct (Henable (mkSystem (componentInstances s)
                       (trace s ++ [Emitted "systemWillEnable"]
                          ++ (componentInstances s ≫= fun kc : string * Component =>
                                HelperCalled Mount kc.2
                                  :: match hook_of Mount kc.2 with
                                     | Some _ => [HookCalled Mount kc.2]
                                     | None => []
                                     end)
                          ++ [ServerEnabled]) d) Hall) as [d' ->].
  simpl. split; [done|]. subst hooks. simpl.
  rewrite !List.filter_app. cbn [List.filter].
  rewrite !List.filter_app, !Hvisits. cbn [List.filter]. subst mounted.
  by rewrite !app_nil_r, <- ?app_assoc.
Qed.

End Repeating.

(** ** Locating instances *)

Section Locating.
Import ComponentSystem Locator.
Context {engine : Platform}.
Variable construct : nat -> string -> Completion Component.

Local Abbreviation instances h := (componentInstances (system h)) (only parsing).

Lemma instances_set_new name instance entries :
  instances_get name entries = None ->
  instances_set name instance entries = entries ++ [(name, instance)].
Proof.
  induction entries as [|[key old] rest IH]; simpl; [done|].
  destruct (String.eqb name key); [done|]. intros Hget. by rewrite IH.
Qed.

Lemma instances_get_app name entries key instance :
  instances_get name (entries ++ [(key, instance)])
  = match instances_get name entries with
    | Some found => Some found
    | None => if String.eqb name key then Some instance else None
    end.
Proof.
  induction entries as [|[key' old] rest IH]; simpl; [done|].
  by destruct (String.eqb name key').
Qed.

Lemma instances_get_None_key name entries :
  instances_get name entries = None -> name ∉ entries.*1.
Proof.
  induction entries as [|[key old] rest IH]; simpl; [intros _; apply not_elem_of_nil|].
  destruct (String.eqb name key) eqn:E; [done|]. intros Hget.
  apply not_elem_of_cons. split; [|by apply IH].
  intros ->. by rewrite String.eqb_refl in E.
Qed.

(** How [initializeComponent] returns an instance: the one the map has
    under the name of the class, or a new one, which it adds last. *)
Lemma initializeComponent_Normal ctor h h' instance :
  initializeComponent construct ctor h = (h', Normal instance) ->
  exists name,
    getComponentName (OfObject ctor) (registry h) = Normal (JString name)
    /\ ((h' = h /\ instances_get name (instances h) = Some instance)
        \/ (instances_get name (instances h) = None
            /\ construct ctor name = Normal instance
            /\ h' = mkHost (registry h)
                      (mkSystem (instances h ++ [(name, instance)])
                                (trace (system h)) (diagnostics (system h)))
                      (constructed h ++ [(ctor, name)]))).
Proof.
  unfold initializeComponent.
  destruct (getComponentName (OfObject ctor) (registry h)) as [[| | | |name| | | | |]|];
    try done.
  destruct (instances_get name (instances h)) as [found|] eqn:Hget.
  - intros [= <- <-]. exists name. split; [done|]. by left.
  - destruct (construct ctor name) as [made|e] eqn:Hmake; [|done].
    intros [= <- <-]. exists name. split; [done|]. right.
    split; [done|]. split; [done|].
    unfold with_instances, with_constructed. simpl.
    by rewrite instances_set_new.
Qed.

(** How [initializeComponent] throws: without a change, or after the
    constructor has thrown. *)
Lemma initializeComponent_Throw ctor h h' e :
  initializeComponent construct ctor h = (h', Throw e) ->
  h' = h
  \/ exists name, h' = mkHost (registry h) (system h) (constructed h ++ [(ctor, name)]).
Proof.
  unfold initializeComponent.
  destruct (getComponentName (OfObject ctor) (registry h)) as [[| | | |name| | | | |]|];
    try (intros [= <- _]; by left).
  destruct (instances_get name (instances h)); [done|].
  destruct (construct ctor name); [done|].
  intros [= <- _]. right. by exists name.
Qed.

(** What [getComponentInstance] leaves as it is. *)
Lemma getComponentInstance_frame
  (component : Candidate) (h h' : Host) (out : Completion (option Component)) :
  getComponentInstance construct component h = (h', out) ->
  registry h' = registry h
  /\ trace (system h') = trace (system h)
  /\ diagnostics (system h') = diagnostics (system h)
  /\ (constructed h' = constructed h
      \/ exists ctor name, constructed h' = constructed h ++ [(ctor, name)])
  /\ (instances h' = instances h
      \/ exists name instance,
           instances_get name (instances h) = None
           /\ instances h' = instances h ++ [(name, instance)]
           /\ out = Normal (Some instance)).
Proof.
  assert (Hinit : forall ctor o,
    located (initializeComponent construct ctor h) = (h', o) ->
    registry h' = registry h
    /\ trace (system h') = trace (system h)
    /\ diagnostics (system h') = diagnostics (system h)
    /\ (constructed h' = constructed h
        \/ exists ctor name, constructed h' = constructed h ++ [(ctor, name)])
    /\ (instances h' = instances h
        \/ exists name instance,
             instances_get name (instances h) = None
             /\ instances h' = instances h ++ [(name, instance)]
             /\ o = Normal (Some instance))).
  { intros ctor o. unfold located.
    destruct (initializeComponent construct ctor h) as [h1 [instance|e]] eqn:Hi;
      intros [= <- <-].
    - apply initializeComponent_Normal in Hi
        as (name & _ & [[-> _]|(Hnone & _ & ->)]); simpl.
      + repeat split; by left.
      + repeat split; try done; right; by eauto.
    - apply initializeComponent_Throw in Hi as [->|[name ->]]; simpl.
      + repeat split; by left.
      + repeat split; try done; [right; by eauto|by left]. }
  unfold getComponentInstance.
  destruct component as [[| | | |name]|ref];
    try (intros [= <- <-]; repeat split; by left).
  - destruct (instances_get name (instances h));
      [intros [= <- <-]; repeat split; by left|].
    destruct (registeredComponents (registry h) !! name) as [ctor|];
      [apply Hinit|].
    destruct (bool_decide (name ∈ Client.Object_prototype_names));
      intros [= <- <-]; repeat split; by left.
  - destruct (is_function (registry h) ref);
      [|intros [= <- <-]; repeat split; by left].
    destruct (getComponentName (OfObject ref) (registry h))
      as [[| | | |name| | | | |]|]; try (intros [= <- <-]; repeat split; by left).
    destruct (instances_get name (instances h));
      [intros [= <- <-]; repeat split; by left|].
    apply Hinit.
Qed.

(** A second lookup finds what the first returned. *)
Lemma getComponentInstance_again
  (component : Candidate) (h h' : Host) (instance : Component) :
  getComponentInstance construct component h = (h', Normal (Some instance)) ->
  getComponentInstance construct component h' = (h', Normal (Some instance)).
Proof.
  assert (Hagain : forall ctor,
    located (initializeComponent construct ctor h) = (h', Normal (Some instance)) ->
    registry h' = registry h
    /\ located (initializeComponent construct ctor h') = (h', Normal (Some instance))
    /\ exists name,
         getComponentName (OfObject ctor) (registry h) = Normal (JString name)
         /\ instances_get name (instances h') = Some instance
         /\ (h' = h \/ instances h' = instances h ++ [(name, instance)])).
  { intros ctor. unfold located at 1.
    destruct (initializeComponent construct ctor h) as [h1 [made|e]] eqn:Hi;
      intros [= <- <-].
    apply initializeComponent_Normal in Hi
      as (name & Hname & [[-> Hget]|(Hnone & _ & ->)]).
    - split; [done|]. split.
      + unfold initializeComponent. by rewrite Hname, Hget.
      + exists name. repeat split; try done. by left.
    - simpl. split; [done|].
      assert (Hget : instances_get name (instances h ++ [(name, made)]) = Some made).
      { by rewrite instances_get_app, Hnone, String.eqb_refl. }
      split.
      + unfold initializeComponent. cbn [registry system componentInstances].
        by rewrite Hname, Hget.
      + exists name. repeat split; try done. by right. }
  unfold getComponentInstance at 1.
  destruct component as [[| | | |name]|ref]; try done.
  - destruct (instances_get name (instances h)) as [found|] eqn:Hget.
    { intros [= <- <-]. unfold getComponentInstance. by rewrite Hget. }
    destruct (registeredComponents (registry h) !! name) as [ctor|] eqn:Hreg.
    + intros Hloc. destruct (Hagain ctor Hloc)
        as (Hregistry & Hsecond & tag & Htag & Hfound & Hgrow).
      unfold getComponentInstance. rewrite Hregistry, Hreg.
      destruct (instances_get name (instances h')) as [found|] eqn:Hget'; [|done].
      destruct Hgrow as [->|Hgrow]; [congruence|].
      rewrite Hgrow, instances_get_app, Hget in Hget'.
      destruct (String.eqb name tag); congruence.
    + by destruct (bool_decide (name ∈ Client.Object_prototype_names)).
  - destruct (is_function (registry h) ref) eqn:Hfun; [|done].
    destruct (getComponentName (OfObject ref) (registry h))
      as [[| | | |name| | | | |]|] eqn:Hname; try done.
    destruct (instances_get name (instances h)) as [found|] eqn:Hget.
    { intros [= <- <-]. unfold getComponentInstance. by rewrite Hfun, Hname, Hget. }
    intros Hloc. destruct (Hagain ref Hloc)
      as (Hregistry & Hsecond & tag & Htag & Hfound & _).
    rewrite Hname in Htag. injection Htag as <-.
    unfold getComponentInstance. by rewrite Hregistry, Hfun, Hname, Hfound.
Qed.

(** X16: locating changes nothing but the instance map, and that by at
    most one instance, added last under a name that had none: it never
    changes the registry, never replaces or removes an instance, and
    never calls a lifecycle hook or reports to the diagnostics sink; it
    runs at most one constructor. *)
Theorem locating_adds_at_most_one_instance
  (component : Candidate) (h h' : Host) (out : Completion (option Component)) :
  getComponentInstance construct component h = (h', out) ->
  registry h' = registry h
  /\ trace (system h') = trace (system h)
  /\ diagnostics (system h') = diagnostics (system h)
  /\ (constructed h' = constructed h
      \/ exists ctor name, constructed h' = constructed h ++ [(ctor, name)])
  /\ (instances h' = instances h
      \/ exists name instance,
           instances_get name (instances h) = None
           /\ instances h' = instances h ++ [(name, instance)]
           /\ out = Normal (Some instance)).
Proof. apply getComponentInstance_frame. Qed.

(** X17: an instance is made once: when [getComponentInstance] has
    returned an instance, asking again, in the state it left, returns the
    same instance and changes nothing, so no constructor runs again. *)
Theorem located_instance_is_kept
  (component : Candidate) (h h' : Host) (instance : Component) :
  getComponentInstance construct component h = (h', Normal (Some instance)) ->
  getComponentInstance construct component h' = (h', Normal (Some instance)).
Proof. apply getComponentInstance_again. Qed.

(** A name that has an instance keeps having one, whatever is located
    next. *)
Lemma located_name_stays_located name component h h' out :
  (exists instance,
     getComponentInstance construct (OfPrimitive (PString name)) h
     = (h, Normal (Some instance))) ->
  getComponentInstance construct component h = (h', out) ->
  exists instance,
    getComponentInstance construct (OfPrimitive (PString name)) h'
    = (h', Normal (Some instance)).
Proof.
  intros [instance Hloc] Hstep.
  destruct (getComponentInstance_frame _ _ _ _ Hstep) as (Hreg & _ & _ & _ & Hgrow).
  assert (Hkeep : forall key found,
    instances_get key (instances h) = Some found ->
    instances_get key (instances h') = Some found).
  { intros key found Hget.
    destruct Hgrow as [->|(k & v & _ & -> & _)]; [done|].
    by rewrite instances_get_app, Hget. }
  unfold getComponentInstance in Hloc |- *.
  destruct (instances_get name (instances h)) as [found|] eqn:Hget.
  { rewrite (Hkeep _ _ Hget). by eexists. }
  destruct (instances_get name (instances h')) as [found|]; [by eexists|].
  rewrite Hreg.
  destruct (registeredComponents (registry h) !! name) as [ctor|];
    [|by destruct (bool_decide (name ∈ Client.Object_prototype_names))].
  unfold located in Hloc.
  destruct (initializeComponent construct ctor h) as [h1 [made|e]] eqn:Hi; [|done].
  assert (h1 = h /\ made = instance) as [-> ->] by (by injection Hloc).
  clear Hloc.
  apply initializeComponent_Normal in Hi as (tag & Htag & [[_ Hfound]|(_ & _ & Hh)]).
  - exists instance. unfold located, initializeComponent.
    by rewrite Hreg, Htag, (Hkeep _ _ Hfound).
  - apply (f_equal (fun x => length (constructed x))) in Hh.
    simpl in Hh. rewrite length_app in Hh. simpl in Hh. lia.
Qed.

Lemma locate_all_keeps_located name names :
  forall h h' out,
    (exists instance,
       getComponentInstance construct (OfPrimitive (PString name)) h
       = (h, Normal (Some instance))) ->
    locate_all construct names h = (h', out) ->
    exists instance,
      getComponentInstance construct (OfPrimitive (PString name)) h'
      = (h', Normal (Some instance)).
Proof.
  induction names as [|v rest IH]; intros h h' out Hloc; cbn [locate_all].
  { by intros [= <- _]. }
  destruct v as [| | | |first| | | | |]; try by intros [= <- _].
  destruct (getComponentInstance construct (OfPrimitive (PString first)) h)
    as [h1 [component|e]] eqn:Hstep.
  - assert (Hloc1 := located_name_stays_located _ _ _ _ _ Hloc Hstep).
    destruct (locate_all construct rest h1) as [h2 [found|e]] eqn:Hrest;
      intros [= <- _]; by eapply IH.
  - intros [= <- _]. by eapply located_name_stays_located.
Qed.

(** X18: when [RPCLoadComponents] returns, every element of the array is
    a string that names a component with an instance: locating it
    afterwards returns an instance and changes nothing. *)
Theorem loaded_components_are_located (names : list JsValue) (h h' : Host) :
  RPCLoadComponents construct (JArray names) h = (h', Normal tt) ->
  Forall (fun v =>
            exists name instance,
              v = JString name
              /\ getComponentInstance construct (OfPrimitive (PString name)) h'
                 = (h', Normal (Some instance)))
         names.
Proof.
  unfold RPCLoadComponents.
  destruct (locate_all construct names h) as [h1 [found|e]] eqn:Hall; [|done].
  destruct (not_found found) eqn:Hnone; [|done]. intros [= <-].
  revert h found Hall Hnone.
  induction names as [|v rest IH]; intros h found; cbn [locate_all];
    [by constructor|].
  destruct v as [| | | |first| | | | |]; try done.
  destruct (getComponentInstance construct (OfPrimitive (PString first)) h)
    as [h2 [component|e]] eqn:Hstep; [|done].
  destruct (locate_all construct rest h2) as [h3 [found'|e]] eqn:Hrest; [|done].
  intros [= <- <-] Hnone. unfold not_found in Hnone. simpl in Hnone.
  destruct component as [instance|]; [|done]. simpl in Hnone.
  constructor; [|by eapply IH].
  assert (Hfirst := getComponentInstance_again _ _ _ _ Hstep).
  destruct (locate_all_keeps_located first rest h2 _ _
              (ex_intro _ instance Hfirst) Hrest) as [kept Hkept].
  by exists first, kept.
Qed.

(** What is asked for under a name that nothing knows is [null]. *)
Lemma getComponentInstance_unknown name h :
  instances_get name (instances h) = None ->
  registeredComponents (registry h) !! name = None ->
  name ∉ Client.Object_prototype_names ->
  getComponentInstance construct (OfPrimitive (PString name)) h = (h, Normal None).
Proof.
  intros Hget Hreg Hin. unfold getComponentInstance.
  by rewrite Hget, Hreg, bool_decide_false.
Qed.

(** X19: names that nothing knows are reported together: when no name
    of a non-empty array has an instance, is registered or is a property
    every object has, [RPCLoadComponents] throws the [TypeError]
    'Components not found' followed by all the names, in their order,
    separated by commas; the host is left as it was. *)
Theorem unknown_components_are_listed (names : list string) (h : Host) :
  names ≠ [] ->
  Forall (fun name =>
            instances_get name (instances h) = None
            /\ registeredComponents (registry h) !! name = None
            /\ name ∉ Client.Object_prototype_names)
         names ->
  RPCLoadComponents construct (JArray (JString <$> names)) h
  = (h, Throw (new_TypeError ("Components not found " +:+ join_comma names))).
Proof.
  intros Hne Hall.
  assert (Hlocate : locate_all construct (JString <$> names) h
                    = (h, Normal ((fun name => (None, name)) <$> names))).
  { induction Hall as [|name rest (Hget & Hreg & Hin) _ IH]; [done|].
    cbn [fmap list_fmap locate_all]. rewrite getComponentInstance_unknown by done.
    destruct rest as [|second rest'].
    - done.
    - by rewrite IH. }
  unfold RPCLoadComponents. rewrite Hlocate.
  assert (not_found ((fun name => (@None Component, name)) <$> names) = names) as ->.
  { clear. induction names as [|name rest IH]; [done|].
    unfold not_found in *. rewrite fmap_cons. cbn [List.filter].
    change (negb (bool_decide (is_Some (@None Component, name).1))) with true.
    cbn iota. rewrite fmap_cons. by rewrite IH. }
  by destruct names.
Qed.

(** X20: the name and the class lead to one instance: once a class is
    registered under a name that is not empty, the first
    [getComponentInstance] by that name constructs the instance, with
    the name in its options, and [getComponentInstance] by the class then
    returns that instance without constructing anything. *)
Theorem name_and_class_locate_one_instance
  (componentName : string) (ref : nat) (reg : Registry) (h : Host)
  (instance : Component) :
  registerComponent componentName (OfObject ref) reg = (registry h, Normal tt) ->
  componentName ≠ "" ->
  instances_get componentName (instances h) = None ->
  construct ref componentName = Normal instance ->
  exists h1,
    getComponentInstance construct (OfPrimitive (PString componentName)) h
    = (h1, Normal (Some instance))
    /\ getComponentInstance construct (OfObject ref) h1 = (h1, Normal (Some instance))
    /\ constructed h1 = constructed h ++ [(ref, componentName)]
    /\ instances h1 = instances h ++ [(componentName, instance)].
Proof.
  intros Hok Hname Hnone Hmake.
  destruct (registerComponent_succeeds _ _ _ _ Hok)
    as (ref' & [= <-] & Htag & _ & Hreg & _ & Hread).
  specialize (Hread Hname).
  assert (Hfun : is_function (registry h) ref = true).
  { unfold is_function, tag_of in *.
    destruct (objects (registry h) !! ref) as [o|] eqn:Ho; [|done].
    revert Hok. unfold registerComponent, _registerComponent.
    destruct (has_tag reg ref); [done|].
    destruct (name_in_registry reg componentName); [done|].
    destruct (is_function reg ref) eqn:Hf; [|done]. simpl.
    intros [= Hh]. rewrite <- Hh in Ho. unfold is_function in Hf.
    unfold set_registered, set_tag in Ho. simpl in Ho.
    destruct (objects reg !! ref) as [o0|] eqn:Ho0; [|done]. simpl in Ho.
    rewrite list_lookup_insert_eq in Ho by (by eapply lookup_lt_Some).
    by injection Ho as <-. }
  eexists. split; [|split; [|split]].
  - unfold getComponentInstance. rewrite Hnone, Hreg.
    unfold located, initializeComponent. rewrite Hread, Hnone, Hmake.
    cbn [system componentInstances with_constructed].
    rewrite instances_set_new by done. reflexivity.
  - unfold getComponentInstance.
    cbn [registry system componentInstances with_instances with_constructed].
    rewrite Hfun, Hread.
    by rewrite instances_get_app, Hnone, String.eqb_refl.
  - done.
  - done.
Qed.

End Locating.

(** ** The further properties on concrete inputs *)

Section FurtherWitnesses.
Import Client ComponentSystem Locator.

Lemma only_the_pending_call_is_settled_witness :
  promises Scenario.answered_once !! 0%nat ≠ promises Scenario.one_call_pending !! 0%nat
  /\ exists message,
       Engine.parse (Engine.response_text "1" "42") = inl message
       /\ table_get Scenario.one_call_pending (prop message "id") = Some 0%nat
       /\ promises Scenario.one_call_pending !! 0%nat = Some Pending.
Proof.
  assert (H : promises Scenario.answered_once !! 0%nat
              ≠ promises Scenario.one_call_pending !! 0%nat)
    by (vm_compute; discriminate).
  split; [exact H|].
  exact (only_the_pending_call_is_settled (engine := Engine.reference)
           (Engine.response_text "1" "42") Scenario.one_call_pending 0%nat H).
Defined.


Lemma namespace_method_is_a_call_witness :
  target_read ∅ "onX" = None
  /\ exists r2 f,
       proxy_get2 0 "Foo" "onX" Scenario.root = Some (r2, f)
       /\ peer r2 = new_Client false
       /\ invoke (engine := Engine.reference) f [JNumber 1] r2
          = Some (mkRealm
                    (call (engine := Engine.reference) "Foo.onX" (JArray [JNumber 1])
                          (new_Client false)).1
                    (heap r2),
                  Normal tt).
Proof.
  split; [by vm_compute|].
  apply (namespace_method_is_a_call (engine := Engine.reference)
           (mkRealm (new_Client false) []) "Foo" "onX" [JNumber 1]);
    by vm_compute.
Defined.

Lemma namespace_emit_is_a_notification_witness :
  (5 < js_length "emitPing")%nat
  /\ exists r2 f,
       proxy_get2 0 "Foo" "emitPing" Scenario.root = Some (r2, f)
       /\ peer r2 = new_Client false
       /\ invoke (engine := Engine.reference) f [JNumber 1] r2
          = Some (mkRealm
                    (Client.notify (engine := Engine.reference) "Foo.Ping" (JArray [JNumber 1])
                            (new_Client false)).1
                    (heap r2),
                  Normal tt).
Proof.
  split; [vm_compute; lia|].
  apply (namespace_emit_is_a_notification (engine := Engine.reference)
           (mkRealm (new_Client false) []) "Foo" "emitPing" [JNumber 1]);
    try by vm_compute.
  vm_compute. lia.
Defined.

Lemma registration_is_exclusive_witness :
  registerComponent (engine := Engine.reference) "Foo" (OfObject 0) Scenario.one_class
  = (Cases.registered_Foo, Normal tt)
  /\ exists e,
       registerComponent (engine := Engine.reference) "Bar" (OfObject 0)
         Cases.registered_Foo
       = (Cases.registered_Foo, Throw e).
Proof.
  assert (H : registerComponent (engine := Engine.reference) "Foo" (OfObject 0)
                Scenario.one_class
              = (Cases.registered_Foo, Normal tt)) by by vm_compute.
  split; [exact H|].
  apply (registration_is_exclusive (engine := Engine.reference)
           "Foo" (OfObject 0) Scenario.one_class Cases.registered_Foo H
           "Bar" (OfObject 0)).
  by left.
Defined.

Lemma registered_name_is_read_back_witness :
  "Foo" ≠ ""
  /\ getComponentName (engine := Engine.reference) (OfObject 0) Cases.registered_Foo
     = Normal (JString "Foo").
Proof.
  split; [discriminate|].
  apply (registered_name_is_read_back (engine := Engine.reference)
           "Foo" 0%nat Scenario.one_class Cases.registered_Foo).
  - by vm_compute.
  - discriminate.
Defined.

Lemma inherited_names_cannot_be_registered_witness :
  "toString" ∈ Object_prototype_names
  /\ exists e,
       registerComponent (engine := Engine.reference) "toString" (OfObject 0)
         Scenario.one_class
       = (Scenario.one_class, Throw e).
Proof.
  assert (H : "toString" ∈ Object_prototype_names)
    by (apply (bool_decide_unpack _); by vm_compute).
  split; [exact H|].
  exact (inherited_names_cannot_be_registered (engine := Engine.reference)
           "toString" (OfObject 0) Scenario.one_class H).
Defined.

Lemma subclass_answers_to_the_name_of_its_parent_witness :
  tag_of Cases.with_subclass 0 = Some "Foo"
  /\ getComponentName (engine := Engine.reference) (OfObject 1) Cases.with_subclass
     = Normal (JString "Foo").
Proof.
  split; [reflexivity|].
  apply (subclass_answers_to_the_name_of_its_parent (engine := Engine.reference)
           Cases.with_subclass 1%nat 0%nat (mkClassObject true None [0%nat]) []
           "Foo" "Sub"); try reflexivity.
  discriminate.
Defined.

Lemma unmount_sequence_witness :
  Forall (fun kc : string * Component =>
            forall error, hook_of Unmount kc.2 ≠ Some (HookThrows error))
         (componentInstances Cases.two_rejecting)
  /\ (unmount Cases.two_rejecting).2 = Normal tt.
Proof.
  assert (H : Forall (fun kc : string * Component =>
                        forall error, hook_of Unmount kc.2 ≠ Some (HookThrows error))
                     (componentInstances Cases.two_rejecting))
    by (repeat constructor; discriminate).
  split; [exact H|].
  by destruct (unmount_sequence Cases.two_rejecting H) as [Hout _].
Defined.

Lemma enable_sequence_witness :
  Forall (fun kc : string * Component =>
            forall error, hook_of Mount kc.2 ≠ Some (HookThrows error))
         (componentInstances Cases.two_rejecting)
  /\ (enable Cases.two_rejecting).2 = Normal tt.
Proof.
  assert (H : Forall (fun kc : string * Component =>
                        forall error, hook_of Mount kc.2 ≠ Some (HookThrows error))
                     (componentInstances Cases.two_rejecting))
    by (repeat constructor; discriminate).
  split; [exact H|].
  by destruct (enable_sequence Cases.two_rejecting H) as [Hout _].
Defined.

Lemma second_unmount_calls_no_hook_witness :
  Forall (fun kc : string * Component =>
            forall error, componentWillUnmount kc.2 ≠ Some (HookThrows error))
         (componentInstances Cases.two_rejecting)
  /\ componentInstances (unmount Cases.two_rejecting).1 = [].
Proof.
  assert (H : Forall (fun kc : string * Component =>
                        forall error, componentWillUnmount kc.2 ≠ Some (HookThrows error))
                     (componentInstances Cases.two_rejecting))
    by (repeat constructor; discriminate).
  split; [exact H|].
  by destruct (second_unmount_calls_no_hook Cases.two_rejecting H) as (_ & ? & _).
Defined.

Lemma enable_twice_mounts_twice_witness :
  Forall (fun kc : string * Component =>
            forall error, componentDidMount kc.2 ≠ Some (HookThrows error))
         (componentInstances Cases.two_rejecting)
  /\ (enable (enable Cases.two_rejecting).1).2 = Normal tt.
Proof.
  assert (H : Forall (fun kc : string * Component =>
                        forall error, componentDidMount kc.2 ≠ Some (HookThrows error))
                     (componentInstances Cases.two_rejecting))
    by (repeat constructor; discriminate).
  split; [exact H|].
  by destruct (enable_twice_mounts_twice Cases.two_rejecting H) as [? _].
Defined.

Lemma locating_adds_at_most_one_instance_witness :
  getComponentInstance (engine := Engine.reference) Cases.plain_constructor
    (OfPrimitive (PString "Foo")) Cases.host_Foo
  = (Cases.host_Foo_located, Normal (Some Scenario.quiet))
  /\ registry Cases.host_Foo_located = registry Cases.host_Foo.
Proof.
  assert (H : getComponentInstance (engine := Engine.reference) Cases.plain_constructor
                (OfPrimitive (PString "Foo")) Cases.host_Foo
              = (Cases.host_Foo_located, Normal (Some Scenario.quiet)))
    by by vm_compute.
  split; [exact H|].
  by destruct (locating_adds_at_most_one_instance (engine := Engine.reference)
                 Cases.plain_constructor _ _ _ _ H) as [? _].
Defined.

Lemma located_instance_is_kept_witness :
  getComponentInstance (engine := Engine.reference) Cases.plain_constructor
    (OfPrimitive (PString "Foo")) Cases.host_Foo
  = (Cases.host_Foo_located, Normal (Some Scenario.quiet))
  /\ getComponentInstance (engine := Engine.reference) Cases.plain_constructor
       (OfPrimitive (PString "Foo")) Cases.host_Foo_located
     = (Cases.host_Foo_located, Normal (Some Scenario.quiet)).
Proof.
  assert (H : getComponentInstance (engine := Engine.reference) Cases.plain_constructor
                (OfPrimitive (PString "Foo")) Cases.host_Foo
              = (Cases.host_Foo_located, Normal (Some Scenario.quiet)))
    by by vm_compute.
  split; [exact H|].
  exact (located_instance_is_kept (engine := Engine.reference)
           Cases.plain_constructor _ _ _ _ H).
Defined.

Lemma loaded_components_are_located_witness :
  RPCLoadComponents (engine := Engine.reference) Cases.plain_constructor
    (JArray [JString "Foo"]) Cases.host_Foo
  = (Cases.host_Foo_located, Normal tt)
  /\ Forall (fun v =>
               exists name instance,
                 v = JString name
                 /\ getComponentInstance (engine := Engine.reference)
                      Cases.plain_constructor (OfPrimitive (PString name))
                      Cases.host_Foo_located
                    = (Cases.host_Foo_located, Normal (Some instance)))
            [JString "Foo"].
Proof.
  assert (H : RPCLoadComponents (engine := Engine.reference) Cases.plain_constructor
                (JArray [JString "Foo"]) Cases.host_Foo
              = (Cases.host_Foo_located, Normal tt)) by by vm_compute.
  split; [exact H|].
  exact (loaded_components_are_located (engine := Engine.reference)
           Cases.plain_constructor _ _ _ H).
Defined.

Lemma unknown_components_are_listed_witness :
  ["Bar"; "Baz"] ≠ []
  /\ RPCLoadComponents (engine := Engine.reference) Cases.plain_constructor
       (JArray [JString "Bar"; JString "Baz"]) Cases.host_Foo
     = (Cases.host_Foo,
        Throw (new_TypeError (engine := Engine.reference)
                 "Components not found Bar,Baz")).
Proof.
  split; [discriminate|].
  apply (unknown_components_are_listed (engine := Engine.reference)
           Cases.plain_constructor ["Bar"; "Baz"] Cases.host_Foo); [discriminate|].
  repeat constructor; try by vm_compute.
  all: apply (bool_decide_unpack _); by vm_compute.
Defined.

Lemma name_and_class_locate_one_instance_witness :
  registerComponent (engine := Engine.reference) "Foo" (OfObject 0) Scenario.one_class
  = (registry Cases.host_Foo, Normal tt)
  /\ exists h1,
       getComponentInstance (engine := Engine.reference) Cases.plain_constructor
         (OfPrimitive (PString "Foo")) Cases.host_Foo
       = (h1, Normal (Some Scenario.quiet))
       /\ getComponentInstance (engine := Engine.reference) Cases.plain_constructor
            (OfObject 0) h1
          = (h1, Normal (Some Scenario.quiet))
       /\ constructed h1 = constructed Cases.host_Foo ++ [(0%nat, "Foo")]
       /\ componentInstances (system h1)
          = componentInstances (system Cases.host_Foo) ++ [("Foo", Scenario.quiet)].
Proof.
  split; [by vm_compute|].
  apply (name_and_class_locate_one_instance (engine := Engine.reference)
           Cases.plain_constructor "Foo" 0%nat Scenario.one_class Cases.host_Foo
           Scenario.quiet); by vm_compute.
Defined.

End FurtherWitnesses.

(** ** Logging *)

Section Logging.
Import Client History.
Context {engine : Platform}.

Local Abbreviation logged direction :=
  (omap (fun e => match e with
                  | ConsoleLog d m =>
                      match d, direction with
                      | Send, Send | Receive, Receive => Some m
                      | _, _ => None
                      end
                  | _ => None
                  end)) (only parsing).

Local Abbreviation flushing log queue :=
  (queue ≫= fun m => (if log then [ConsoleLog Send m] else []) ++ [SendMessage m])
  (only parsing).

Lemma logged_flushing (log : bool) (queue : list string) :
  logged Send (flushing log queue) = (if log then queue else [])
  /\ logged Receive (flushing log queue) = [].
Proof.
  induction queue as [|m rest [IHs IHr]]; [by destruct log|].
  rewrite bind_cons, !omap_app, IHs, IHr. by destruct log.
Qed.

(** What a flush adds to the trace. *)
Lemma _sendQueuedRequests_effects c :
  effects (_sendQueuedRequests c)
  = effects c
    ++ (if _connected c then flushing (_consoleLog c) (_requestQueue c) else []).
Proof.
  destruct (_connected c) eqn:Hc.
  - by rewrite _sendQueuedRequests_connected.
  - rewrite _sendQueuedRequests_disconnected by done. by rewrite app_nil_r.
Qed.

(** What an operation other than [setLogging] adds to the console and to
    the transport. *)
Lemma step_console op c :
  (forall logConsole, op ≠ OpSetLogging logConsole) ->
  _consoleLog (step c op) = _consoleLog c
  /\ logged Receive (effects (step c op))
     = logged Receive (effects c)
       ++ (if _consoleLog c
           then match op with OpProcessMessage m => [m] | _ => [] end
           else [])
  /\ exists new,
       sent (step c op) = sent c ++ new
       /\ logged Send (effects (step c op))
          = logged Send (effects c) ++ (if _consoleLog c then new else []).
Proof.
  intros Hop.
  assert (Hflush : forall c0 : Client,
    _consoleLog (_sendQueuedRequests c0) = _consoleLog c0
    /\ logged Receive (effects (_sendQueuedRequests c0)) = logged Receive (effects c0)
    /\ exists new,
         sent (_sendQueuedRequests c0) = sent c0 ++ new
         /\ logged Send (effects (_sendQueuedRequests c0))
            = logged Send (effects c0) ++ (if _consoleLog c0 then new else [])).
  { intros c0. rewrite _sendQueuedRequests_effects. unfold sent.
    rewrite _sendQueuedRequests_effects.
    split.
    { unfold _sendQueuedRequests. destruct (_connected c0); [|done].
      by rewrite flush_closed_form. }
    destruct (_connected c0).
    - destruct (logged_flushing (_consoleLog c0) (_requestQueue c0)) as [Hs Hr].
      rewrite !omap_app, Hs, Hr, app_nil_r. split; [done|].
      exists (_requestQueue c0). by rewrite selected_flushed.
    - rewrite !app_nil_r. split; [done|]. exists [].
      destruct (_consoleLog c0); by rewrite ?app_nil_r. }
  assert (Hidle : forall c0 : Client,
    _consoleLog c0 = _consoleLog c0
    /\ logged Receive (effects c0)
       = logged Receive (effects c0) ++ (if _consoleLog c0 then [] else [])
    /\ exists new,
         sent c0 = sent c0 ++ new
         /\ logged Send (effects c0)
            = logged Send (effects c0) ++ (if _consoleLog c0 then new else [])).
  { intros c0. split; [done|]. split; [destruct (_consoleLog c0); by rewrite app_nil_r|].
    exists []. destruct (_consoleLog c0); by rewrite ?app_nil_r. }
  assert (Hsend : forall (c0 : Client) message,
    _consoleLog (_send message c0) = _consoleLog c0
    /\ logged Receive (effects (_send message c0))
       = logged Receive (effects c0) ++ (if _consoleLog c0 then [] else [])
    /\ exists new,
         sent (_send message c0) = sent c0 ++ new
         /\ logged Send (effects (_send message c0))
            = logged Send (effects c0) ++ (if _consoleLog c0 then new else [])).
  { intros c0 message. unfold _send.
    match goal with |- context [_sendQueuedRequests ?c1] =>
      destruct (Hflush c1) as (Hl & Hr & new & Hs & Hn) end.
    rewrite Hl, Hr. split; [done|].
    split; [destruct (_consoleLog c0); by rewrite app_nil_r|]. by exists new. }
  destruct op as [method params|method params| |messageStr|logConsole];
    cbn [step].
  - destruct (params_rejected params) eqn:Hp.
    + rewrite call_rejected by done. apply Hidle.
    + rewrite call_accepted by done. cbn [fst].
      match goal with |- context [_send ?m ?c0] => apply (Hsend c0 m) end.
  - destruct (params_rejected params) eqn:Hp.
    + rewrite notify_rejected by done. apply Hidle.
    + rewrite notify_accepted by done. apply Hsend.
  - unfold didConnect. destruct (_connected c) eqn:Hc; cbn [negb].
    + apply Hidle.
    + destruct (Hflush (with_connected true c)) as (Hl & Hr & new & Hs & Hn).
      rewrite Hl, Hr. split; [done|].
      split; [destruct (_consoleLog c); by rewrite app_nil_r|]. by exists new.
  - destruct (processMessage_frame messageStr c) as (_ & _ & Hl & _ & _ & Hs).
    rewrite Hl, Hs. split; [done|].
    assert (Heff : exists tail,
      effects (processMessage messageStr c)
      = effects c
        ++ (if _consoleLog c then [ConsoleLog Receive messageStr] else []) ++ tail
      /\ logged Receive tail = [] /\ logged Send tail = []).
    { assert (Hlog : effects (_logMessage messageStr Receive c)
                     = effects c
                       ++ (if _consoleLog c
                           then [ConsoleLog Receive messageStr] else [])).
      { unfold _logMessage. destruct (_consoleLog c); [done|].
        by rewrite app_nil_r. }
      destruct (processMessage_cases messageStr c)
        as [(event & args & ->)|(message & p & st & _ & _ & _ & ->)].
      - exists [EmitEvent event args]. simpl. rewrite Hlog.
        by rewrite <- app_assoc.
      - exists []. rewrite effects_settle, Hlog. by rewrite app_nil_r. }
    destruct Heff as (tail & -> & Hr & Hsd).
    rewrite !omap_app, Hr, Hsd, !app_nil_r.
    split; [by destruct (_consoleLog c)|].
    exists []. rewrite !app_nil_r. by destruct (_consoleLog c).
  - by destruct (Hop logConsole).
Qed.

(** X21: the console mirrors the traffic.  In a history without
    [setLogging], a peer constructed with logging on has logged, as
    sent, exactly the strings handed to the transport, in their order,
    and, as received, exactly the strings given to [processMessage], in
    their order; a peer constructed with logging off has logged nothing. *)
Theorem console_mirrors_the_traffic (logConsole : bool) (ops : list Op) :
  Forall (fun op => forall b, op ≠ OpSetLogging b) ops ->
  let c := run ops (new_Client logConsole) in
  let received :=
    omap (fun op => match op with OpProcessMessage m => Some m | _ => None end) ops in
  logged Send (effects c) = (if logConsole then sent c else [])
  /\ logged Receive (effects c) = (if logConsole then received else []).
Proof.
  intros Hops.
  assert (Hrun : forall c0,
    logged Send (effects c0) = (if _consoleLog c0 then sent c0 else []) ->
    _consoleLog (run ops c0) = _consoleLog c0
    /\ logged Send (effects (run ops c0))
       = (if _consoleLog c0 then sent (run ops c0) else [])
    /\ logged Receive (effects (run ops c0))
       = logged Receive (effects c0)
         ++ (if _consoleLog c0
             then omap (fun op => match op with
                                  | OpProcessMessage m => Some m
                                  | _ => None
                                  end) ops
             else [])).
  { induction Hops as [|op rest Hop _ IH]; intros c0 Hinv.
    - simpl. split; [done|]. split; [done|].
      destruct (_consoleLog c0); by rewrite app_nil_r.
    - change (run (op :: rest) c0) with (run rest (step c0 op)).
      destruct (step_console op c0 Hop) as (Hl & Hr & new & Hs & Hn).
      destruct (IH (step c0 op)) as (Hl' & Hs' & Hr').
      { rewrite Hl, Hn, Hs, Hinv. by repeat case_match. }
      rewrite Hl in Hl', Hs', Hr'. split; [exact Hl'|]. split; [exact Hs'|].
      rewrite Hr', Hr. destruct (_consoleLog c0); [|by rewrite !app_nil_r].
      rewrite <- app_assoc. by destruct op. }
  intros c received.
  destruct (Hrun (new_Client logConsole)) as (_ & Hs & Hr).
  { by destruct logConsole. }
  by split.
Qed.

End Logging.

Lemma console_mirrors_the_traffic_witness :
  Forall (fun op => forall b, op ≠ History.OpSetLogging b)
         [History.OpCall "m" (JArray []); History.OpDidConnect;
          History.OpProcessMessage (Engine.response_text "1" "42")]
  /\ omap (fun e => match e with
                    | Client.ConsoleLog Client.Receive m => Some m
                    | _ => None
                    end)
          (Client.effects
             (History.run (engine := Engine.reference)
                [History.OpCall "m" (JArray []); History.OpDidConnect;
                 History.OpProcessMessage (Engine.response_text "1" "42")]
                (Client.new_Client true)))
     = [Engine.response_text "1" "42"].
Proof.
  assert (H : Forall (fun op => forall b, op ≠ History.OpSetLogging b)
                [History.OpCall "m" (JArray []); History.OpDidConnect;
                 History.OpProcessMessage (Engine.response_text "1" "42")])
    by (repeat constructor; discriminate).
  split; [exact H|].
  by destruct (console_mirrors_the_traffic (engine := Engine.reference) true _ H)
    as [_ ->].
Defined.
